(** * fquic: the connection layer ([conn.go])

    A shallow embedding of [Conn] (the stream-acceptance multiplexer and
    the close path) and of [Dialer] (configuration resolution and the
    dial entry points), followed by the properties of the design document
    that concern them.

    Goroutines are modelled as program counters inside one global
    [State]; a [Label] picks the goroutine that moves next (and what the
    session answers), so that an interleaving is a [list Label] and
    [run] executes it.  Every step reports the observable operations it
    performs as [Event]s. *)

From stdpp Require Import gmap strings list.
From Stdlib Require Import NArith.

Set Default Proof Using "Type".

(** ** Go values *)

(** A non-nil [error], by its message; Go's [error] interface value is
    [option Err], with [None] for [nil]. *)
Definition Err := string.
Abbreviation error := (option Err).

(** [context.Canceled]. *)
Definition context_Canceled : Err := "context canceled".

(** Handles of the session's streams ([quic.Stream],
    [quic.ReceiveStream], [quic.SendStream]); [None] is [nil]. *)
Definition handle := nat.

(** Modelled from the spec: the [Stream] type and its constructor
    [newStream(c, send, recv)] are declared outside [conn.go].  A stream
    wraps a send-side handle and/or a receive-side handle; the argument
    order is the one [NewStream] uses ([OpenUniStream] yields the send
    side and is passed second).  The back pointer to the connection is
    left out: there is one connection per [State]. *)
Record Stream := { send : option handle; recv : option handle }.

Definition newStream (snd rcv : option handle) : Stream :=
  {| send := snd; recv := rcv |}.

(** Lines 118-132: [NewStream], given what [OpenUniStream] or
    [OpenStream] answers. *)
Definition NewStream (unidirectional : bool) (r : handle + Err)
  : option Stream * error :=
  if unidirectional then
    match r with
    | inr err => (None, Some err)
    | inl s => (Some (newStream (Some s) None), None)
    end
  else
    match r with
    | inr err => (None, Some err)
    | inl s => (Some (newStream (Some s) (Some s)), None)
    end.

Inductive Kind := Bidi | Uni.

#[global] Instance Kind_eq_dec : EqDecision Kind.
Proof. solve_decision. Defined.

#[global] Instance Stream_eq_dec : EqDecision Stream.
Proof. solve_decision. Defined.

(** [sync.RWMutex]: one writer or any number of readers. *)
Record RWMutex := { writer : bool; readers : nat }.

Definition Lock (m : RWMutex) : option RWMutex :=
  if writer m then None
  else match readers m with
       | O => Some {| writer := true; readers := 0 |}
       | S _ => None
       end.

Definition Unlock (m : RWMutex) : RWMutex :=
  {| writer := false; readers := readers m |}.

Definition RLock (m : RWMutex) : option RWMutex :=
  if writer m then None
  else Some {| writer := false; readers := S (readers m) |}.

Definition RUnlock (m : RWMutex) : RWMutex :=
  {| writer := writer m; readers := pred (readers m) |}.

(** ** The goroutines of a connection *)

(** One accept loop of [acceptStreams] (lines 55-64 and 66-75): calling
    the session's accept, blocked on [c.streams <- ...], returned [err]
    from the loop function, or finished inside the errgroup wrapper. *)
Inductive LoopPc :=
| LAccept
| LSend (st : Stream)
| LReturned (err : Err)
| LDone (err : Err).

(** The body of [acceptStreams] itself, from [eg.Wait()] on. *)
Inductive MainPc :=
| MWait                 (* blocked in eg.Wait() *)
| MCheck (err : error)  (* err := eg.Wait() returned *)
| MLocked (err : Err)   (* err != nil, c.streamLock.Lock() taken *)
| MWritten              (* c.streamErr = err done; deferred calls remain *)
| MDeferCancel          (* deferred Unlock done (or skipped) *)
| MDeferClose           (* deferred cancel() done *)
| MExit.                (* deferred close(c.streams) done *)

(** One call of [AcceptStream(ctx)]. *)
Inductive AcceptPc :=
| ASelect                               (* blocked in the select *)
| AClosed                               (* received with ok = false *)
| ARLocked                              (* c.streamLock.RLock() taken *)
| ARead (err : error)                   (* c.streamErr evaluated *)
| ADone (s : option Stream) (err : error).

Record Caller := { cctx : error; apc : AcceptPc }.

(** One call of [CloseWithError(code, desc)]. *)
Inductive ClosePc :=
| COnce                 (* before c.closer.Do *)
| CSession              (* before c.session.CloseWithError *)
| CRet (err : error).

Record Closer := { code : N; desc : string; cpc : ClosePc }.

Record State := {
  (* the fields of Conn *)
  c_streams : bool;            (* c.streams is closed *)
  c_streamErr : error;
  c_streamLock : RWMutex;
  c_closer : bool;             (* c.closer has fired *)
  c_done : bool;               (* c.done is closed *)
  (* the activation of acceptStreams *)
  ctx_parent : bool;           (* ctx of context.WithCancel is cancelled *)
  ctx_group : bool;            (* the errgroup cancelled its context *)
  eg_err : error;              (* the errgroup's first error *)
  loop_bidi : LoopPc;
  loop_uni : LoopPc;
  watcher : bool;              (* the goroutine of lines 48-51 has run *)
  main : MainPc;
  (* calls in progress *)
  accepts : list Caller;
  closes : list Closer;
  panicked : option string
}.

(** [newConn]: open channels, no error, and [acceptStreams] started. *)
Definition newConn : State :=
  {| c_streams := false; c_streamErr := None;
     c_streamLock := {| writer := false; readers := 0 |};
     c_closer := false; c_done := false;
     ctx_parent := false; ctx_group := false; eg_err := None;
     loop_bidi := LAccept; loop_uni := LAccept;
     watcher := false; main := MWait;
     accepts := []; closes := []; panicked := None |}.

(** The context handed to the session's accept calls is the errgroup's,
    derived from [ctx]: it is done when either is cancelled. *)
Definition ctx_done (s : State) : bool := ctx_parent s || ctx_group s.

Definition loop (k : Kind) (s : State) : LoopPc :=
  match k with Bidi => loop_bidi s | Uni => loop_uni s end.

Definition with_streams v s :=
  {| c_streams := v; c_streamErr := c_streamErr s; c_streamLock := c_streamLock s;
     c_closer := c_closer s; c_done := c_done s; ctx_parent := ctx_parent s;
     ctx_group := ctx_group s; eg_err := eg_err s; loop_bidi := loop_bidi s;
     loop_uni := loop_uni s; watcher := watcher s; main := main s;
     accepts := accepts s; closes := closes s; panicked := panicked s |}.
Definition with_streamErr v s :=
  {| c_streams := c_streams s; c_streamErr := v; c_streamLock := c_streamLock s;
     c_closer := c_closer s; c_done := c_done s; ctx_parent := ctx_parent s;
     ctx_group := ctx_group s; eg_err := eg_err s; loop_bidi := loop_bidi s;
     loop_uni := loop_uni s; watcher := watcher s; main := main s;
     accepts := accepts s; closes := closes s; panicked := panicked s |}.
Definition with_streamLock v s :=
  {| c_streams := c_streams s; c_streamErr := c_streamErr s; c_streamLock := v;
     c_closer := c_closer s; c_done := c_done s; ctx_parent := ctx_parent s;
     ctx_group := ctx_group s; eg_err := eg_err s; loop_bidi := loop_bidi s;
     loop_uni := loop_uni s; watcher := watcher s; main := main s;
     accepts := accepts s; closes := closes s; panicked := panicked s |}.
Definition with_closer v s :=
  {| c_streams := c_streams s; c_streamErr := c_streamErr s; c_streamLock := c_streamLock s;
     c_closer := v; c_done := c_done s; ctx_parent := ctx_parent s;
     ctx_group := ctx_group s; eg_err := eg_err s; loop_bidi := loop_bidi s;
     loop_uni := loop_uni s; watcher := watcher s; main := main s;
     accepts := accepts s; closes := closes s; panicked := panicked s |}.
Definition with_done v s :=
  {| c_streams := c_streams s; c_streamErr := c_streamErr s; c_streamLock := c_streamLock s;
     c_closer := c_closer s; c_done := v; ctx_parent := ctx_parent s;
     ctx_group := ctx_group s; eg_err := eg_err s; loop_bidi := loop_bidi s;
     loop_uni := loop_uni s; watcher := watcher s; main := main s;
     accepts := accepts s; closes := closes s; panicked := panicked s |}.
Definition with_ctx_parent v s :=
  {| c_streams := c_streams s; c_streamErr := c_streamErr s; c_streamLock := c_streamLock s;
     c_closer := c_closer s; c_done := c_done s; ctx_parent := v;
     ctx_group := ctx_group s; eg_err := eg_err s; loop_bidi := loop_bidi s;
     loop_uni := loop_uni s; watcher := watcher s; main := main s;
     accepts := accepts s; closes := closes s; panicked := panicked s |}.
Definition with_ctx_group v s :=
  {| c_streams := c_streams s; c_streamErr := c_streamErr s; c_streamLock := c_streamLock s;
     c_closer := c_closer s; c_done := c_done s; ctx_parent := ctx_parent s;
     ctx_group := v; eg_err := eg_err s; loop_bidi := loop_bidi s;
     loop_uni := loop_uni s; watcher := watcher s; main := main s;
     accepts := accepts s; closes := closes s; panicked := panicked s |}.
Definition with_eg_err v s :=
  {| c_streams := c_streams s; c_streamErr := c_streamErr s; c_streamLock := c_streamLock s;
     c_closer := c_closer s; c_done := c_done s; ctx_parent := ctx_parent s;
     ctx_group := ctx_group s; eg_err := v; loop_bidi := loop_bidi s;
     loop_uni := loop_uni s; watcher := watcher s; main := main s;
     accepts := accepts s; closes := closes s; panicked := panicked s |}.
Definition with_loop k v s :=
  {| c_streams := c_streams s; c_streamErr := c_streamErr s; c_streamLock := c_streamLock s;
     c_closer := c_closer s; c_done := c_done s; ctx_parent := ctx_parent s;
     ctx_group := ctx_group s; eg_err := eg_err s;
     loop_bidi := match k with Bidi => v | Uni => loop_bidi s end;
     loop_uni := match k with Bidi => loop_uni s | Uni => v end;
     watcher := watcher s; main := main s;
     accepts := accepts s; closes := closes s; panicked := panicked s |}.
Definition with_watcher v s :=
  {| c_streams := c_streams s; c_streamErr := c_streamErr s; c_streamLock := c_streamLock s;
     c_closer := c_closer s; c_done := c_done s; ctx_parent := ctx_parent s;
     ctx_group := ctx_group s; eg_err := eg_err s; loop_bidi := loop_bidi s;
     loop_uni := loop_uni s; watcher := v; main := main s;
     accepts := accepts s; closes := closes s; panicked := panicked s |}.
Definition with_main v s :=
  {| c_streams := c_streams s; c_streamErr := c_streamErr s; c_streamLock := c_streamLock s;
     c_closer := c_closer s; c_done := c_done s; ctx_parent := ctx_parent s;
     ctx_group := ctx_group s; eg_err := eg_err s; loop_bidi := loop_bidi s;
     loop_uni := loop_uni s; watcher := watcher s; main := v;
     accepts := accepts s; closes := closes s; panicked := panicked s |}.
Definition with_accepts v s :=
  {| c_streams := c_streams s; c_streamErr := c_streamErr s; c_streamLock := c_streamLock s;
     c_closer := c_closer s; c_done := c_done s; ctx_parent := ctx_parent s;
     ctx_group := ctx_group s; eg_err := eg_err s; loop_bidi := loop_bidi s;
     loop_uni := loop_uni s; watcher := watcher s; main := main s;
     accepts := v; closes := closes s; panicked := panicked s |}.
Definition with_closes v s :=
  {| c_streams := c_streams s; c_streamErr := c_streamErr s; c_streamLock := c_streamLock s;
     c_closer := c_closer s; c_done := c_done s; ctx_parent := ctx_parent s;
     ctx_group := ctx_group s; eg_err := eg_err s; loop_bidi := loop_bidi s;
     loop_uni := loop_uni s; watcher := watcher s; main := main s;
     accepts := accepts s; closes := v; panicked := panicked s |}.
Definition with_panicked v s :=
  {| c_streams := c_streams s; c_streamErr := c_streamErr s; c_streamLock := c_streamLock s;
     c_closer := c_closer s; c_done := c_done s; ctx_parent := ctx_parent s;
     ctx_group := ctx_group s; eg_err := eg_err s; loop_bidi := loop_bidi s;
     loop_uni := loop_uni s; watcher := watcher s; main := main s;
     accepts := accepts s; closes := closes s; panicked := v |}.

Definition with_caller (i : nat) (c : Caller) (s : State) : State :=
  with_accepts (<[i := c]> (accepts s)) s.

Definition with_apc (i : nat) (c : Caller) (pc : AcceptPc) (s : State) : State :=
  with_caller i {| cctx := cctx c; apc := pc |} s.

Definition with_cpc (j : nat) (c : Closer) (pc : ClosePc) (s : State) : State :=
  with_closes (<[j := {| code := code c; desc := desc c; cpc := pc |}]> (closes s)) s.

(** ** Interleavings *)

(** What moves next.  The session is an external collaborator: what its
    accept and close calls answer is part of the label. *)
Inductive Label :=
| LoopAcceptOk (k : Kind) (h : handle)   (* the accept of loop k returns (h, nil) *)
| LoopAcceptCancelled (k : Kind)         (* ... returns ctx.Err(), ctx being done *)
| LoopAcceptFail (k : Kind) (err : Err)  (* ... returns an error of the session *)
| LoopSendClosed (k : Kind)              (* c.streams <- st on a closed channel *)
| LoopReport (k : Kind)                  (* errgroup: errOnce.Do and wg.Done *)
| WatcherFire                            (* <-c.done; cancel() *)
| MainStep                               (* acceptStreams from eg.Wait() on *)
| CallAcceptStream                       (* a new AcceptStream(ctx) call *)
| CtxCancel (i : nat) (err : Err)        (* the ctx of call i is cancelled *)
| AcceptCtxDone (i : nat)                (* select: case <-ctx.Done() *)
| AcceptRecv (i : nat) (k : Kind)        (* select: receives from loop k *)
| AcceptRecvClosed (i : nat)             (* select: receives, ok = false *)
| AcceptStep (i : nat)                   (* RLock, read, deferred RUnlock *)
| CallClose                              (* a new Close() call *)
| CallCloseWithError (code : N) (desc : string)
| CloseOnce (j : nat)                    (* c.closer.Do(...) *)
| CloseSession (j : nat) (r : error).    (* c.session.CloseWithError returns r *)

(** What a step does that can be observed from outside the goroutine. *)
Inductive Event :=
| EvAccepted (k : Kind) (h : handle)     (* the session handed h to loop k *)
| EvAcceptErr (k : Kind) (err : Err)     (* the accept of loop k failed *)
| EvReport (k : Kind) (err : Err)        (* the errgroup saw loop k return err *)
| EvWriteErr (err : Err)                 (* c.streamErr = err *)
| EvCloseStreams                         (* close(c.streams) *)
| EvCloseDone                            (* close(c.done) *)
| EvSessionClose (code : N) (desc : string)
| EvRecv (i : nat) (k : Kind) (st : Stream)  (* call i returns (st, nil) *)
| EvCtxReturn (i : nat) (err : error)    (* call i returns (nil, ctx.Err()) *)
| EvClosedReturn (i : nat) (err : error) (* call i returns (nil, c.streamErr) *)
| EvPanic (msg : string).

(** Lines 57-62: the bidirectional loop after [c.session.AcceptStream]. *)
Definition bidi_body (r : handle + Err) : LoopPc :=
  match r with
  | inr err => LReturned err
  | inl s => LSend (newStream (Some s) (Some s))
  end.

(** Lines 68-73: the unidirectional loop after
    [c.session.AcceptUniStream]. *)
Definition uni_body (r : handle + Err) : LoopPc :=
  match r with
  | inr err => LReturned err
  | inl s => LSend (newStream None (Some s))
  end.

Definition loop_body (k : Kind) : handle + Err -> LoopPc :=
  match k with Bidi => bidi_body | Uni => uni_body end.

Definition accept_event (k : Kind) (r : handle + Err) : Event :=
  match r with inl h => EvAccepted k h | inr err => EvAcceptErr k err end.

(** Lines 57 and 68: the accept call of loop [k] returns [r]. *)
Definition loop_accept (k : Kind) (r : handle + Err) (s : State)
  : option (State * list Event) :=
  match loop k s with
  | LAccept => Some (with_loop k (loop_body k r) s, [accept_event k r])
  | _ => None
  end.

Definition do_panic (msg : string) (s : State) : State * list Event :=
  (with_panicked (Some msg) s, [EvPanic msg]).

(** The wrapper of [errgroup.Group.Go] around a loop function that
    returned [err]: the first error is kept and cancels the group's
    context, then the wait group is released. *)
Definition loop_report (k : Kind) (s : State) : option (State * list Event) :=
  match loop k s with
  | LReturned err =>
      let s1 := match eg_err s with
                | None => with_ctx_group true (with_eg_err (Some err) s)
                | Some _ => s
                end in
      Some (with_loop k (LDone err) s1, [EvReport k err])
  | _ => None
  end.

Definition loop_finished (pc : LoopPc) : bool :=
  match pc with LDone _ => true | _ => false end.

(** Lines 77-84 and the deferred calls of lines 43 and 46, which run in
    reverse order: [Unlock] (when taken), [cancel()], [close(c.streams)].
    [eg.Wait()] returns once both loop functions have gone through the
    errgroup wrapper; it cancels the group's context and hands back the
    group's error. *)
Definition acceptStreams_main (s : State) : option (State * list Event) :=
  match main s with
  | MWait =>                                    (* line 77: err := eg.Wait() *)
      if loop_finished (loop_bidi s) && loop_finished (loop_uni s)
      then Some (with_main (MCheck (eg_err s)) (with_ctx_group true s), [])
      else None
  | MCheck (Some err) =>                        (* lines 78-79: err != nil, Lock() *)
      m ← Lock (c_streamLock s);
      Some (with_main (MLocked err) (with_streamLock m s), [])
  | MCheck None =>                              (* line 78: err == nil *)
      Some (with_main MDeferCancel s, [])
  | MLocked err =>                              (* line 82: c.streamErr = err *)
      Some (with_main MWritten (with_streamErr (Some err) s), [EvWriteErr err])
  | MWritten =>                                 (* line 80: deferred Unlock() *)
      Some (with_main MDeferCancel (with_streamLock (Unlock (c_streamLock s)) s), [])
  | MDeferCancel =>                             (* line 46: deferred cancel() *)
      Some (with_main MDeferClose (with_ctx_parent true s), [])
  | MDeferClose =>                              (* line 43: deferred close(c.streams) *)
      if c_streams s then Some (do_panic "close of closed channel" s)
      else Some (with_main MExit (with_streams true s), [EvCloseStreams])
  | MExit => None
  end.

(** Lines 48-51: the goroutine that waits for [c.done] and cancels. *)
Definition acceptStreams_watcher (s : State) : option (State * list Event) :=
  if watcher s then None
  else if c_done s then Some (with_watcher true (with_ctx_parent true s), [])
  else None.

(** [AcceptStream], lines 103-115.  The select has two cases; which one
    is taken when both are ready is the scheduler's choice.

    Lines 104-105: [case <-ctx.Done(): return nil, ctx.Err()]. *)
Definition AcceptStream_ctx (i : nat) (s : State) : option (State * list Event) :=
  c ← accepts s !! i;
  match apc c, cctx c with
  | ASelect, Some err =>
      Some (with_apc i c (ADone None (Some err)) s, [EvCtxReturn i (Some err)])
  | _, _ => None
  end.

(** Lines 107 and 114: [case s, ok := <-c.streams] with [ok] true, the
    rendezvous with the loop that is blocked on the send; [return s, nil]. *)
Definition AcceptStream_recv (i : nat) (k : Kind) (s : State)
  : option (State * list Event) :=
  c ← accepts s !! i;
  match apc c, loop k s with
  | ASelect, LSend st =>
      if c_streams s then None
      else Some (with_apc i c (ADone (Some st) None) (with_loop k LAccept s),
                 [EvRecv i k st])
  | _, _ => None
  end.

(** Lines 107-108: the same case on a closed channel, [ok] false. *)
Definition AcceptStream_closed (i : nat) (s : State) : option (State * list Event) :=
  c ← accepts s !! i;
  match apc c with
  | ASelect => if c_streams s then Some (with_apc i c AClosed s, []) else None
  | _ => None
  end.

(** Lines 109-112: [RLock()], [return nil, c.streamErr] and the deferred
    [RUnlock()]. *)
Definition AcceptStream_step (i : nat) (s : State) : option (State * list Event) :=
  c ← accepts s !! i;
  match apc c with
  | AClosed =>                                  (* line 109 *)
      m ← RLock (c_streamLock s);
      Some (with_apc i c ARLocked (with_streamLock m s), [])
  | ARLocked =>                                 (* line 112, the operand *)
      Some (with_apc i c (ARead (c_streamErr s)) s, [])
  | ARead err =>                                (* line 110, deferred *)
      Some (with_apc i c (ADone None err)
              (with_streamLock (RUnlock (c_streamLock s)) s),
            [EvClosedReturn i err])
  | _ => None
  end.

(** A call of [CloseWithError(code, desc)] starts (lines 92-97). *)
Definition CloseWithError_call (code : N) (desc : string) (s : State) : State :=
  with_closes (closes s ++ [{| code := code; desc := desc; cpc := COnce |}]) s.

(** Lines 88-90: [Close()] is [CloseWithError(0, "")]. *)
Definition Close_call (s : State) : State := CloseWithError_call 0 "" s.

(** Lines 93-95: [c.closer.Do(func() { close(c.done) })].  [sync.Once]
    runs the function for the first caller only; closing a closed
    channel panics. *)
Definition CloseWithError_once (j : nat) (s : State) : option (State * list Event) :=
  c ← closes s !! j;
  match cpc c with
  | COnce =>
      if c_closer s then Some (with_cpc j c CSession s, [])
      else if c_done s
      then Some (do_panic "close of closed channel" (with_closer true s))
      else Some (with_cpc j c CSession (with_done true (with_closer true s)),
                 [EvCloseDone])
  | _ => None
  end.

(** Line 96: [return c.session.CloseWithError(code, desc)], whatever
    [c.closer] did. *)
Definition CloseWithError_session (j : nat) (r : error) (s : State)
  : option (State * list Event) :=
  c ← closes s !! j;
  match cpc c with
  | CSession => Some (with_cpc j c (CRet r) s, [EvSessionClose (code c) (desc c)])
  | _ => None
  end.

(** One step of the goroutine named by the label; [None] when it cannot
    move (it is blocked, or the program has panicked). *)
Definition step (s : State) (l : Label) : option (State * list Event) :=
  if bool_decide (panicked s = None) then
  match l with
  | LoopAcceptOk k h => loop_accept k (inl h) s
  | LoopAcceptCancelled k =>
      if ctx_done s then loop_accept k (inr context_Canceled) s else None
  | LoopAcceptFail k err => loop_accept k (inr err) s
  | LoopSendClosed k =>
      match loop k s with
      | LSend _ =>
          if c_streams s then Some (do_panic "send on closed channel" s) else None
      | _ => None
      end
  | LoopReport k => loop_report k s
  | WatcherFire => acceptStreams_watcher s
  | MainStep => acceptStreams_main s
  | CallAcceptStream =>
      Some (with_accepts (accepts s ++ [{| cctx := None; apc := ASelect |}]) s, [])
  | CtxCancel i err =>
      c ← accepts s !! i;
      match cctx c with
      | None => Some (with_caller i {| cctx := Some err; apc := apc c |} s, [])
      | Some _ => None
      end
  | AcceptCtxDone i => AcceptStream_ctx i s
  | AcceptRecv i k => AcceptStream_recv i k s
  | AcceptRecvClosed i => AcceptStream_closed i s
  | AcceptStep i => AcceptStream_step i s
  | CallClose => Some (Close_call s, [])
  | CallCloseWithError code desc => Some (CloseWithError_call code desc s, [])
  | CloseOnce j => CloseWithError_once j s
  | CloseSession j r => CloseWithError_session j r s
  end
  else None.

(** [run s tr]: the state after the interleaving [tr] and the events it
    produced, in order; [None] when some label of [tr] cannot move. *)
Fixpoint run (s : State) (tr : list Label) : option (State * list Event) :=
  match tr with
  | [] => Some (s, [])
  | l :: tr' =>
      '(s1, e1) ← step s l;
      '(s2, e2) ← run s1 tr';
      Some (s2, e1 ++ e2)
  end.

(** ** Memory of the dial path *)

(** Pointers are addresses into a typed heap; [option addr] is a pointer
    that may be [nil]. *)
Definition addr := nat.

(** A [[]string]: backing array, offset into it, length and capacity.
    The nil slice has no array. *)
Record Slice := { arr : option addr; off : nat; len : nat; cap : nat }.

Definition nil_slice : Slice := {| arr := None; off := 0; len := 0; cap := 0 |}.

(** [tls.Config], with the field the dialer touches and two of the
    others. *)
Record Config := {
  NextProtos : Slice;
  ServerName : string;
  InsecureSkipVerify : bool
}.

Definition zero_Config : Config :=
  {| NextProtos := nil_slice; ServerName := ""; InsecureSkipVerify := false |}.

Record Dialer := {
  TLSConfig : option addr;     (* *tls.Config *)
  QuicConfig : option addr;    (* *quic.Config *)
  Protocol : string
}.

Definition zero_Dialer : Dialer :=
  {| TLSConfig := None; QuicConfig := None; Protocol := "" |}.

Definition Session := nat.

(** A [*Conn] as the dial functions return it. *)
Record Conn := { session : Session; conn : State }.

(** The calls that reach the network, with the negotiation list they
    were given. *)
Inductive NetCall :=
| DialAddrContext (ctx : error) (address : string)
    (protos : list string) (quicConf : option addr)
| DialContext (ctx : error) (pconn : nat) (raddr host : string)
    (protos : list string) (quicConf : option addr).

Record World := {
  dialers : gmap addr Dialer;
  configs : gmap addr Config;
  arrays : gmap addr (list string);
  net : list NetCall
}.

Inductive outcome (A : Type) :=
| Return (a : A)
| Panic (msg : string).
Arguments Return {A} a.
Arguments Panic {A} msg.

(** Computations over the world that may panic. *)
Definition M (A : Type) : Type := World -> outcome A * World.

#[global] Instance M_ret : MRet M := fun A a w => (Return a, w).

#[global] Instance M_bind : MBind M := fun A B f m w =>
  match m w with
  | (Return a, w1) => f a w1
  | (Panic msg, w1) => (Panic msg, w1)
  end.

Definition panic {A} (msg : string) : M A := fun w => (Panic msg, w).

Definition load_dialer (d : addr) : M Dialer :=
  fun w => (Return (default zero_Dialer (dialers w !! d)), w).

Definition load_config (p : addr) : M Config :=
  fun w => (Return (default zero_Config (configs w !! p)), w).

Definition new_Dialer : M addr := fun w =>
  let d := fresh (dom (dialers w)) in
  (Return d, {| dialers := <[d := zero_Dialer]> (dialers w);
                configs := configs w; arrays := arrays w; net := net w |}).

Definition new_Config (c : Config) : M addr := fun w =>
  let p := fresh (dom (configs w)) in
  (Return p, {| dialers := dialers w; configs := <[p := c]> (configs w);
                arrays := arrays w; net := net w |}).

Definition new_array (xs : list string) : M addr := fun w =>
  let a := fresh (dom (arrays w)) in
  (Return a, {| dialers := dialers w; configs := configs w;
                arrays := <[a := xs]> (arrays w); net := net w |}).

Definition store_array (a : addr) (xs : list string) : M unit := fun w =>
  (Return (), {| dialers := dialers w; configs := configs w;
                 arrays := <[a := xs]> (arrays w); net := net w |}).

(** [conf.NextProtos = s]. *)
Definition store_NextProtos (p : addr) (s : Slice) : M unit := fun w =>
  let c := default zero_Config (configs w !! p) in
  (Return (), {| dialers := dialers w;
                 configs := <[p := {| NextProtos := s; ServerName := ServerName c;
                                      InsecureSkipVerify := InsecureSkipVerify c |}]>
                              (configs w);
                 arrays := arrays w; net := net w |}).

Definition elems_in (w : World) (s : Slice) : list string :=
  match arr s with
  | None => []
  | Some a => take (len s) (drop (off s) (default [] (arrays w !! a)))
  end.

(** The elements of a slice, as [s...] passes them. *)
Definition slice_elems (s : Slice) : M (list string) :=
  fun w => (Return (elems_in w s), w).

(** [[]string{x1, ..., xn}]: a new array of exactly these elements. *)
Definition slice_literal (xs : list string) : M Slice :=
  a ← new_array xs;
  mret {| arr := Some a; off := 0; len := length xs; cap := length xs |}.

Definition write_at (i : nat) (xs l : list string) : list string :=
  take i l ++ xs ++ drop (i + length xs) l.

Section Dial.

(** The spare capacity the runtime adds when [append] has to grow a
    slice of the given capacity to the given length. *)
Variable spare : nat -> nat -> nat.

(** The quic-go entry points, which establish the session. *)
Variable quic_dial : NetCall -> Session + Err.

(** The built-in [append(s, xs...)]: in place when the capacity
    suffices, else into a new array. *)
Definition append (s : Slice) (xs : list string) : M Slice :=
  if decide (len s + length xs ≤ cap s) then
    match arr s with
    | Some a =>
        old ← (fun w => (Return (default [] (arrays w !! a)), w));
        store_array a (write_at (off s + len s) xs old);;
        mret {| arr := Some a; off := off s; len := len s + length xs; cap := cap s |}
    | None => mret s
    end
  else
    old ← slice_elems s;
    let n := len s + length xs in
    let extra := spare (cap s) n in
    a ← new_array (old ++ xs ++ replicate extra "");
    mret {| arr := Some a; off := 0; len := n; cap := n + extra |}.

(** [Clone] on a [*tls.Config]: nil for nil, else a new Config with the same
    fields (the slice is shared, not copied). *)
Definition Config_Clone (c : option addr) : M (option addr) :=
  match c with
  | None => mret None
  | Some p => cfg ← load_config p; q ← new_Config cfg; mret (Some q)
  end.

(** Lines 163-178. *)
Definition Dialer_tlsConfig (d : addr) : M addr :=
  dl ← load_dialer d;
  conf ← Config_Clone (TLSConfig dl);
  conf ← match conf with
         | None => new_Config zero_Config
         | Some p => mret p
         end;
  dl ← load_dialer d;
  (if decide (Protocol dl ≠ "") then
     lit ← slice_literal [Protocol dl];
     cfg ← load_config conf;
     xs ← slice_elems (NextProtos cfg);
     s ← append lit xs;
     store_NextProtos conf s
   else mret ());;
  cfg ← load_config conf;
  if decide (len (NextProtos cfg) = 0)
  then panic "no protocol specified"
  else mret conf.

Definition call_quic (mk : list string -> NetCall) (conf : addr)
  : M (Session + Err) :=
  fun w =>
    let call := mk (elems_in w (NextProtos (default zero_Config (configs w !! conf)))) in
    (Return (quic_dial call),
     {| dialers := dialers w; configs := configs w; arrays := arrays w;
        net := net w ++ [call] |}).

(** [newConn(session)] hands back the connection in its initial state. *)
Definition wrap_session (r : Session + Err) : option Conn * error :=
  match r with
  | inr err => (None, Some err)
  | inl session => (Some {| session := session; conn := newConn |}, None)
  end.

(** Lines 184-191. *)
Definition Dialer_DialContext (d : addr) (ctx : error) (address : string)
  : M (option Conn * error) :=
  conf ← Dialer_tlsConfig d;
  dl ← load_dialer d;
  r ← call_quic (fun protos => DialAddrContext ctx address protos (QuicConfig dl)) conf;
  mret (wrap_session r).

(** Lines 180-182; [context.Background()] is never done. *)
Definition Dialer_Dial (d : addr) (address : string) : M (option Conn * error) :=
  Dialer_DialContext d None address.

(** Lines 197-204. *)
Definition Dialer_ClientContext (d : addr) (ctx : error)
    (pconn : nat) (raddr host : string) : M (option Conn * error) :=
  conf ← Dialer_tlsConfig d;
  dl ← load_dialer d;
  r ← call_quic (fun protos => DialContext ctx pconn raddr host protos (QuicConfig dl)) conf;
  mret (wrap_session r).

(** Lines 193-195. *)
Definition Dialer_Client (d : addr) (pconn : nat) (raddr host : string)
  : M (option Conn * error) :=
  Dialer_ClientContext d None pconn raddr host.

(** Lines 34-36. *)
Definition Dial (address : string) : M (option Conn * error) :=
  d ← new_Dialer; Dialer_Dial d address.

(** Lines 38-40. *)
Definition Client (pconn : nat) (raddr host : string) : M (option Conn * error) :=
  d ← new_Dialer; Dialer_Client d pconn raddr host.

End Dial.

(** ** Vocabulary of the dial path properties *)

(** The configuration the caller supplied: the one [TLSConfig] points
    to, or a blank one. *)
Definition caller_cfg (w : World) (dl : Dialer) : Config :=
  match TLSConfig dl with
  | None => zero_Config
  | Some p => default zero_Config (configs w !! p)
  end.

(** A slice of a running program points to an allocated array. *)
Definition slice_ok (w : World) (s : Slice) : Prop :=
  ∀ a, arr s = Some a → is_Some (arrays w !! a).

(** Every dialer, configuration and array of [w] is still there in [w'],
    with the same contents. *)
Definition preserved (w w' : World) : Prop :=
  dialers w ⊆ dialers w' ∧ configs w ⊆ configs w' ∧ arrays w ⊆ arrays w'.

(** A dial operation that panics with "no protocol specified" and leaves
    the network untouched. *)
Definition fails_unconfigured {A} (m : M A) (w : World) : Prop :=
  (m w).1 = Panic "no protocol specified" ∧ net (m w).2 = net w.

(** ** Vocabulary of the connection properties *)

Definition main_wrote (pc : MainPc) : bool :=
  match pc with
  | MWritten | MDeferCancel | MDeferClose | MExit => true
  | _ => false
  end.

Definition main_exited (pc : MainPc) : bool :=
  match pc with MExit => true | _ => false end.

(** What holds of every state an interleaving can reach. *)
Record Inv (s : State) : Prop := {
  inv_panic : panicked s = None;
  inv_done : c_done s = c_closer s;
  inv_streams : c_streams s = main_exited (main s);
  inv_loops_done :
    main s ≠ MWait →
    loop_finished (loop_bidi s) = true ∧ loop_finished (loop_uni s) = true;
  inv_eg_some : ∀ k e, loop k s = LDone e → is_Some (eg_err s);
  inv_eg_from : ∀ e, eg_err s = Some e → ∃ k, loop k s = LDone e;
  inv_eg_cancel : is_Some (eg_err s) → ctx_group s = true;
  inv_check : ∀ r, main s = MCheck r → r = eg_err s;
  inv_locked : ∀ e, main s = MLocked e → eg_err s = Some e;
  inv_err : c_streamErr s = if main_wrote (main s) then eg_err s else None;
  inv_watcher : watcher s = true → ctx_parent s = true;
  inv_callers : ∀ i c, accepts s !! i = Some c →
    match apc c with
    | AClosed | ARLocked => c_streams s = true
    | ARead r => c_streams s = true ∧ r = c_streamErr s
    | _ => True
    end
}.

(** Projections of an event trace. *)
Definition writes (evs : list Event) : list Err :=
  omap (λ e, match e with EvWriteErr err => Some err | _ => None end) evs.

Definition reports (evs : list Event) : list (Kind * Err) :=
  omap (λ e, match e with EvReport k err => Some (k, err) | _ => None end) evs.

Definition accepted (k : Kind) (evs : list Event) : list handle :=
  omap (λ e, match e with
             | EvAccepted k' h => if decide (k' = k) then Some h else None
             | _ => None
             end) evs.

Definition delivered (k : Kind) (evs : list Event) : list Stream :=
  omap (λ e, match e with
             | EvRecv _ k' st => if decide (k' = k) then Some st else None
             | _ => None
             end) evs.

Definition session_closes (evs : list Event) : list (N * string) :=
  omap (λ e, match e with EvSessionClose c d => Some (c, d) | _ => None end) evs.

Definition done_closes (evs : list Event) : list () :=
  omap (λ e, match e with EvCloseDone => Some () | _ => None end) evs.

Definition stream_closes (evs : list Event) : list () :=
  omap (λ e, match e with EvCloseStreams => Some () | _ => None end) evs.

Definition panics (evs : list Event) : list string :=
  omap (λ e, match e with EvPanic msg => Some msg | _ => None end) evs.

(** The stream a loop holds while blocked on [c.streams <- ...]. *)
Definition pending (k : Kind) (s : State) : list Stream :=
  match loop k s with LSend st => [st] | _ => [] end.

(** What the loop of kind [k] makes of an accepted handle (lines 62 and
    73): [loop_body k (inl h)] is [LSend (stream_of k h)]. *)
Definition stream_of (k : Kind) (h : handle) : Stream :=
  match k with
  | Bidi => newStream (Some h) (Some h)
  | Uni => newStream None (Some h)
  end.

Definition close_returned (c : Closer) : bool :=
  match cpc c with CRet _ => true | _ => false end.

Definition close_past_once (c : Closer) : bool :=
  match cpc c with COnce => false | _ => true end.

Definition countb {A} (f : A → bool) (l : list A) : nat :=
  length (List.filter f l).

(** What the events say of a loop at a given point: the stream it holds
    came from the session, the error it returned is the one its accept
    call failed with, and a finished loop has been seen by the errgroup. *)
Definition loop_ok (k : Kind) (pc : LoopPc) (evs : list Event) : Prop :=
  match pc with
  | LAccept => True
  | LSend st => ∃ h, st = stream_of k h ∧ EvAccepted k h ∈ evs
  | LReturned e => EvAcceptErr k e ∈ evs
  | LDone e => EvAcceptErr k e ∈ evs ∧ (k, e) ∈ reports evs
  end.

(** What ties the events of an interleaving to the state it reaches. *)
Record EInv (s : State) (evs : list Event) : Prop := {
  ev_panics : panics evs = [];
  ev_writes : writes evs = option_list (c_streamErr s);
  ev_stream_closes : stream_closes evs = if c_streams s then [()] else [];
  ev_reports_head : eg_err s = snd <$> head (reports evs);
  ev_loop : ∀ k, loop_ok k (loop k s) evs;
  ev_done_closes : done_closes evs = if c_closer s then [()] else [];
  ev_closer : c_closer s = true ↔ 0 < countb close_past_once (closes s);
  ev_session_closes :
    length (session_closes evs) = countb close_returned (closes s);
  ev_closed_return : ∀ i r,
    EvClosedReturn i r ∈ evs → c_streams s = true ∧ r = c_streamErr s;
  ev_fifo : ∀ k,
    delivered k evs ++ pending k s = stream_of k <$> accepted k evs;
  ev_recv : ∀ i k st,
    EvRecv i k st ∈ evs → ∃ h, st = stream_of k h ∧ EvAccepted k h ∈ evs
}.

(** The state and the events an interleaving leads to from [newConn]
    (the initial state and no event when it cannot run). *)
Definition state_after (tr : list Label) : State :=
  match run newConn tr with Some (s, _) => s | None => newConn end.

Definition events_after (tr : list Label) : list Event :=
  match run newConn tr with Some (_, evs) => evs | None => [] end.

(** ** Sample interleavings and worlds *)

(** Two calls of [Close()], one after the other. *)
Definition trace_two_closes : list Label :=
  [CallClose; CloseOnce 0; CloseSession 0 None;
   CallClose; CloseOnce 1; CloseSession 1 None].

(** A bidirectional and a unidirectional stream arrive; the
    unidirectional one is taken first, then the bidirectional one. *)
Definition trace_deliver : list Label :=
  [LoopAcceptOk Bidi 7; CallAcceptStream; LoopAcceptOk Uni 8;
   AcceptRecv 0 Uni; CallAcceptStream; AcceptRecv 1 Bidi].

(** A stream is offered on the intake while the context of the only
    waiting call is cancelled. *)
Definition trace_cancel : list Label :=
  [LoopAcceptOk Bidi 7; CallAcceptStream; CtxCancel 0 context_Canceled].

(** The connection is closed; the session fails the unidirectional
    accept, the bidirectional one is cancelled; [acceptStreams] unwinds
    and a call of AcceptStream finds the intake closed. *)
Definition trace_shutdown : list Label :=
  [CallClose; CloseOnce 0; WatcherFire;
   LoopAcceptCancelled Bidi; LoopAcceptFail Uni "NO_ERROR";
   LoopReport Uni; LoopReport Bidi;
   MainStep; MainStep; MainStep; MainStep; MainStep; MainStep;
   CallAcceptStream; AcceptRecvClosed 0;
   AcceptStep 0; AcceptStep 0; AcceptStep 0].

Definition world_with (dl : Dialer) : World :=
  {| dialers := {[ 0 := dl ]}; configs := ∅; arrays := ∅; net := [] |}.

Definition h3_dialer : Dialer :=
  {| TLSConfig := None; QuicConfig := None; Protocol := "h3-test" |}.

(** A dialer whose TLSConfig lists "b" and "c" in a slice of a larger
    array. *)
Definition world_with_protos : World :=
  {| dialers := {[ 0 := {| TLSConfig := Some 3; QuicConfig := None;
                           Protocol := "h3-test" |} ]};
     configs := {[ 3 := {| NextProtos := {| arr := Some 1; off := 1; len := 2; cap := 3 |};
                           ServerName := "example.org";
                           InsecureSkipVerify := false |} ]};
     arrays := {[ 1 := ["a"; "b"; "c"; "d"] ]};
     net := [] |}.

Definition no_spare (_ _ : nat) : nat := 0.
Definition dial_ok (_ : NetCall) : Session + Err := inl 1.

(** The schedule of a consumer that keeps up: each arrival is returned
    by the session to the loop of its kind and taken by a new call of
    AcceptStream, the [n]-th one onwards. *)
Fixpoint deliver_all (n : nat) (arr : list (Kind * handle)) : list Label :=
  match arr with
  | [] => []
  | (k, h) :: arr' =>
      [LoopAcceptOk k h; CallAcceptStream; AcceptRecv n k] ++ deliver_all (S n) arr'
  end.

(** The handles of kind [k] among the arrivals, in order. *)
Definition arrivals_of (k : Kind) (arr : list (Kind * handle)) : list handle :=
  omap (λ a, if decide (a.1 = k) then Some a.2 else None) arr.

(** Nothing has failed and both loops wait in their accept call. *)
Definition ready (s : State) : Prop :=
  panicked s = None ∧ c_streams s = false ∧
  loop_bidi s = LAccept ∧ loop_uni s = LAccept.

(** ** Vocabulary of the further properties *)

(** The negotiation list a dial operation hands to quic-go: the one of
    the configuration [tlsConfig] returns, or [None] when it panics. *)
Definition resolved_protos (spare : nat -> nat -> nat) (d : addr) (w : World)
  : option (list string) :=
  match Dialer_tlsConfig spare d w with
  | (Return conf, w') =>
      Some (elems_in w' (NextProtos (default zero_Config (configs w' !! conf))))
  | (Panic _, _) => None
  end.

(** Protocol, when there is one, in front of the caller's list. *)
Definition combined_protos (w : World) (dl : Dialer) : list string :=
  (if decide (Protocol dl = "") then [] else [Protocol dl])
  ++ elems_in w (NextProtos (caller_cfg w dl)).

(** The dialer names a protocol, directly or in its TLSConfig. *)
Definition configured (w : World) (dl : Dialer) : Prop :=
  Protocol dl ≠ "" ∨ len (NextProtos (caller_cfg w dl)) ≠ 0.

(** The pointers of a dialer of a running program are valid: its
    TLSConfig, when not nil, is allocated, and so is the array of that
    configuration's NextProtos. *)
Definition dialer_ok (w : World) (dl : Dialer) : Prop :=
  (∀ p, TLSConfig dl = Some p → is_Some (configs w !! p)) ∧
  slice_ok w (NextProtos (caller_cfg w dl)).

(** The dialer of [world_with_protos]. *)
Definition listed_dialer : Dialer :=
  {| TLSConfig := Some 3; QuicConfig := None; Protocol := "h3-test" |}.

(** A call that holds the read lock (between lines 109 and 110's
    deferred call). *)
Definition reading (c : Caller) : bool :=
  match apc c with ARLocked | ARead _ => true | _ => false end.

(** [acceptStreams] holds the write lock (between line 79 and the
    deferred call of line 80). *)
Definition main_locked (pc : MainPc) : bool :=
  match pc with MLocked _ | MWritten => true | _ => false end.

(** Who holds [c.streamLock]. *)
Record LockInv (s : State) : Prop := {
  lock_writer : writer (c_streamLock s) = main_locked (main s);
  lock_readers : readers (c_streamLock s) = countb reading (accepts s)
}.

(** What a call of [AcceptStream] has returned, if it has: a stream and
    a nil error, or no stream and an error. *)
Definition returned_ok (c : Caller) : Prop :=
  match apc c with
  | ADone (Some _) None | ADone None (Some _) => True
  | ADone _ _ => False
  | _ => True
  end.

(** The three invariants together. *)
Record Good (s : State) : Prop := {
  good_inv : Inv s;
  good_lock : LockInv s;
  good_ret : ∀ i c, accepts s !! i = Some c → returned_ok c
}.

(** The arguments a call hands to [CloseWithError]; [Close()] is
    [CloseWithError(0, "")] (line 89). *)
Definition close_args (l : Label) : option (N * string) :=
  match l with
  | CallClose => Some (0%N, "")
  | CallCloseWithError c d => Some (c, d)
  | _ => None
  end.

Definition closer_args (c : Closer) : N * string := (code c, desc c).

(** The steps [acceptStreams] has left once [eg.Wait()] can return with
    an error. *)
Definition main_left (pc : MainPc) : nat :=
  match pc with
  | MWait => 6
  | MCheck (Some _) => 5
  | MLocked _ => 4
  | MWritten => 3
  | MCheck None | MDeferCancel => 2
  | MDeferClose => 1
  | MExit => 0
  end.

Definition sending (pc : LoopPc) : bool :=
  match pc with LSend _ => true | _ => false end.

(** How the loop of kind [k] comes to its end once its context is done:
    the accept call returns the cancellation error and the errgroup sees
    the loop return.  A loop blocked on [c.streams <- ...] needs a call
    of AcceptStream, the [n]-th, to take the stream first. *)
Definition drain (k : Kind) (n : nat) (pc : LoopPc) : list Label :=
  match pc with
  | LAccept => [LoopAcceptCancelled k; LoopReport k]
  | LSend _ => [CallAcceptStream; AcceptRecv n k; LoopAcceptCancelled k; LoopReport k]
  | LReturned _ => [LoopReport k]
  | LDone _ => []
  end.

(** A schedule that shuts the connection down from [s]: the watcher
    cancels the context if that is still to do, both loops are drained,
    and [acceptStreams] runs to its end. *)
Definition shutdown_schedule (s : State) : list Label :=
  (if ctx_done s then [] else [WatcherFire])
  ++ drain Bidi (length (accepts s)) (loop_bidi s)
  ++ drain Uni (length (accepts s) + (if sending (loop_bidi s) then 1 else 0))
       (loop_uni s)
  ++ replicate (main_left (main s)) MainStep.

(** A call of AcceptStream made once the intake is closed, the [n]-th:
    the select, [RLock], the read of [c.streamErr], [RUnlock]. *)
Definition late_accept (n : nat) : list Label :=
  [CallAcceptStream; AcceptRecvClosed n; AcceptStep n; AcceptStep n; AcceptStep n].

(** ** Further sample interleavings *)

(** The session fails the bidirectional accept; the unidirectional loop
    is cancelled through the errgroup. Nobody calls Close. *)
Definition trace_loops_failed : list Label :=
  [LoopAcceptFail Bidi "timeout"; LoopReport Bidi;
   LoopAcceptCancelled Uni; LoopReport Uni].

(** The same, and [acceptStreams] runs to its end. *)
Definition trace_session_failed : list Label :=
  trace_loops_failed ++ replicate 6 MainStep.

(** Close is called while the bidirectional loop offers a stream that
    nobody takes. *)
Definition trace_close_while_offering : list Label :=
  [LoopAcceptOk Bidi 7; CallClose; CloseOnce 0; CloseSession 0 None].

(** Two streams are delivered, then the session fails. *)
Definition trace_deliver_then_fail : list Label :=
  trace_deliver ++ trace_session_failed.

(** The session has failed, [acceptStreams] has run to its end, and a
    call of AcceptStream is made. *)
Definition trace_late_call : list Label :=
  trace_session_failed ++ [CallAcceptStream].

(** A quic-go that refuses every dial. *)
Definition dial_refused (_ : NetCall) : Session + Err := inr "connection refused".

(** * Properties of the dial path *)

Lemma fresh_lookup_None {V} (m : gmap addr V) : m !! fresh (dom m) = None.
Proof. apply not_elem_of_dom, is_fresh. Qed.

Lemma elems_in_ext w w' s :
  (∀ a, arr s = Some a → arrays w' !! a = arrays w !! a) →
  elems_in w' s = elems_in w s.
Proof.
  unfold elems_in. destruct (arr s) as [a|]; [|done].
  intros H. by rewrite (H a eq_refl).
Qed.

Lemma elems_in_mono w w' s :
  slice_ok w s → arrays w ⊆ arrays w' → elems_in w' s = elems_in w s.
Proof.
  intros Hok Hsub. apply elems_in_ext. intros a Ha.
  destruct (Hok a Ha) as [l Hl]. rewrite Hl.
  by eapply lookup_weaken.
Qed.

Lemma preserved_refl w : preserved w w.
Proof. by repeat split. Qed.

Lemma preserved_trans w1 w2 w3 :
  preserved w1 w2 → preserved w2 w3 → preserved w1 w3.
Proof. intros (?&?&?) (?&?&?). repeat split; by etrans. Qed.

Section DialFacts.

Variable spare : nat -> nat -> nat.
Variable quic_dial : NetCall -> Session + Err.

(** Appending to the one-element literal never writes outside the
    literal's own array. *)
Lemma append_literal x xs w :
  let a := fresh (dom (arrays w)) in
  let w1 := {| dialers := dialers w; configs := configs w;
               arrays := <[a := [x]]> (arrays w); net := net w |} in
  ∃ s w',
    append spare {| arr := Some a; off := 0; len := 1; cap := 1 |} xs w1
      = (Return s, w') ∧
    dialers w' = dialers w ∧ configs w' = configs w ∧ net w' = net w ∧
    arrays w ⊆ arrays w' ∧
    elems_in w' s = x :: xs ∧ len s = S (length xs).
Proof.
  intros a w1.
  pose proof (fresh_lookup_None (arrays w)) as Hfresh.
  unfold append, new_array, store_array, slice_elems,
    mbind, M_bind, mret, M_ret; simpl.
  destruct (decide (S (length xs) ≤ 1)) as [Hle|Hgt]; simpl.
  - destruct xs as [|? ?]; [|simpl in Hle; lia].
    eexists _, _. split; [reflexivity|]. simpl.
    rewrite lookup_insert_eq. simpl. rewrite insert_insert_eq.
    repeat split; try done.
    + by apply insert_subseteq.
    + unfold elems_in; simpl. by rewrite lookup_insert_eq.
  - eexists _, _. split; [reflexivity|]. simpl.
    repeat split; try done.
    + etrans; [apply insert_subseteq, Hfresh|].
      apply insert_subseteq, fresh_lookup_None.
    + unfold elems_in at 1; simpl. rewrite lookup_insert_eq. simpl.
      unfold elems_in; simpl. rewrite lookup_insert_eq. simpl.
      by rewrite take_app_length.
Qed.

(** What [tlsConfig] returns and what it leaves behind. *)
Lemma tlsConfig_run w d :
  let dl := default zero_Dialer (dialers w !! d) in
  let c0 := caller_cfg w dl in
  let conf := fresh (dom (configs w)) in
  ∃ w' s',
    Dialer_tlsConfig spare d w =
      ((if decide (len s' = 0) then Panic "no protocol specified" else Return conf), w') ∧
    dialers w' = dialers w ∧ net w' = net w ∧
    configs w' = <[conf := {| NextProtos := s'; ServerName := ServerName c0;
                              InsecureSkipVerify := InsecureSkipVerify c0 |}]> (configs w) ∧
    arrays w ⊆ arrays w' ∧
    (Protocol dl = "" → s' = NextProtos c0 ∧ arrays w' = arrays w) ∧
    (Protocol dl ≠ "" → len s' ≠ 0 ∧
       (slice_ok w (NextProtos c0) →
        elems_in w' s' = Protocol dl :: elems_in w (NextProtos c0))).
Proof.
  intros dl c0 conf.
  assert (Hclone : ∀ k : addr → M addr,
    (c ← Config_Clone (TLSConfig dl);
     p ← match c with None => new_Config zero_Config | Some p => mret p end;
     k p) w
    = k conf {| dialers := dialers w; configs := <[conf := c0]> (configs w);
                arrays := arrays w; net := net w |}).
  { intros k. unfold c0, caller_cfg. by destruct (TLSConfig dl). }
  unfold Dialer_tlsConfig.
  change ((load_dialer d ≫= ?f) w) with (f dl w). cbv beta.
  rewrite Hclone. clear Hclone.
  set (w1 := {| dialers := dialers w; configs := _; arrays := arrays w; net := net w |}).
  change ((load_dialer d ≫= ?f) w1) with (f dl w1). cbv beta.
  destruct (decide (Protocol dl ≠ "")) as [Hp|Hp].
  - unfold mbind, M_bind, slice_literal, new_array, load_config, slice_elems,
      store_NextProtos, panic, mret, M_ret; simpl.
    rewrite lookup_insert_eq; simpl.
    set (xs := elems_in _ (NextProtos c0)).
    destruct (append_literal (Protocol dl) xs w1)
      as (s & w2 & Happ & Hd & Hc & Hn & Ha & Hel & Hlen).
    simpl in Happ. rewrite Happ. simpl.
    rewrite Hc. simpl. rewrite !lookup_insert_eq. simpl. rewrite insert_insert_eq.
    eexists _, s. split; [by destruct (decide (len s = 0))|]. simpl.
    repeat split; try done.
    + lia.
    + intros Hok. rewrite (elems_in_ext w2) by done. rewrite Hel. f_equal. subst xs.
      apply elems_in_mono; [done|]. simpl.
      apply insert_subseteq, fresh_lookup_None.
  - apply dec_stable in Hp.
    unfold mbind, M_bind, load_config, panic, mret, M_ret; simpl.
    rewrite lookup_insert_eq; simpl.
    eexists _, (NextProtos c0).
    split; [by destruct (decide (len (NextProtos c0) = 0))|]. simpl.
    repeat split; try done.
    by destruct c0.
Qed.

Lemma tlsConfig_preserved w d : preserved w (Dialer_tlsConfig spare d w).2.
Proof.
  destruct (tlsConfig_run w d) as (w' & s' & Heq & Hd & _ & Hc & Ha & _).
  rewrite Heq. simpl. repeat split; [by rewrite Hd| |done].
  rewrite Hc. apply insert_subseteq, fresh_lookup_None.
Qed.

Lemma tlsConfig_net w d : net (Dialer_tlsConfig spare d w).2 = net w.
Proof.
  destruct (tlsConfig_run w d) as (w' & s' & Heq & _ & Hn & _).
  by rewrite Heq.
Qed.

(** A dial operation is [tlsConfig] followed by steps that only extend
    the network log. *)
Lemma dial_after_tlsConfig (mk : Dialer → list string → NetCall) w d :
  let m := conf ← Dialer_tlsConfig spare d;
           dl ← load_dialer d;
           r ← call_quic quic_dial (mk dl) conf;
           mret (wrap_session r) in
  match (Dialer_tlsConfig spare d w).1 with
  | Panic msg => m w = (Panic msg, (Dialer_tlsConfig spare d w).2)
  | Return _ => preserved w (m w).2
  end.
Proof.
  intros m. pose proof (tlsConfig_preserved w d) as Hpre.
  subst m. unfold mbind, M_bind.
  destruct (Dialer_tlsConfig spare d w) as [[conf|msg] w']; simpl in *; done.
Qed.

Lemma dial_preserved (mk : Dialer → list string → NetCall) w d :
  preserved w
    ((conf ← Dialer_tlsConfig spare d;
      dl ← load_dialer d;
      r ← call_quic quic_dial (mk dl) conf;
      mret (wrap_session r)) w).2.
Proof.
  pose proof (dial_after_tlsConfig mk w d) as H. simpl in H.
  pose proof (tlsConfig_preserved w d) as Hpre.
  destruct (Dialer_tlsConfig spare d w).1; [done|].
  by rewrite H.
Qed.

Lemma dial_fails (mk : Dialer → list string → NetCall) w d :
  fails_unconfigured (Dialer_tlsConfig spare d) w →
  fails_unconfigured
    (conf ← Dialer_tlsConfig spare d;
     dl ← load_dialer d;
     r ← call_quic quic_dial (mk dl) conf;
     mret (wrap_session r)) w.
Proof.
  intros [Hp Hn]. pose proof (dial_after_tlsConfig mk w d) as H. simpl in H.
  rewrite Hp in H. unfold fails_unconfigured. by rewrite H.
Qed.

Lemma tlsConfig_fails w d dl :
  dialers w !! d = Some dl →
  Protocol dl = "" →
  len (NextProtos (caller_cfg w dl)) = 0 →
  fails_unconfigured (Dialer_tlsConfig spare d) w.
Proof.
  intros Hd Hp Hlen.
  destruct (tlsConfig_run w d) as (w' & s' & Heq & _ & Hn & _ & _ & Hempty & _).
  rewrite Hd in Hempty. simpl in Hempty.
  destruct (Hempty Hp) as [-> _].
  unfold fails_unconfigured. rewrite Heq. simpl.
  by rewrite decide_True.
Qed.

(** C6: when the dialer has no protocol identifier and the caller's
    negotiation list is empty, so that the combined list is empty (a nil
    TLSConfig counts as an empty list), configuration resolution panics
    with "no protocol specified", and so do DialContext, Dial,
    ClientContext and Client, with no call to the network made. *)
Theorem dial_unconfigured_panics w d dl ctx address pconn raddr host :
  dialers w !! d = Some dl →
  Protocol dl = "" →
  len (NextProtos (caller_cfg w dl)) = 0 →
  fails_unconfigured (Dialer_tlsConfig spare d) w ∧
  fails_unconfigured (Dialer_DialContext spare quic_dial d ctx address) w ∧
  fails_unconfigured (Dialer_Dial spare quic_dial d address) w ∧
  fails_unconfigured (Dialer_ClientContext spare quic_dial d ctx pconn raddr host) w ∧
  fails_unconfigured (Dialer_Client spare quic_dial d pconn raddr host) w.
Proof.
  intros Hd Hp Hlen.
  pose proof (tlsConfig_fails w d dl Hd Hp Hlen) as Hfail.
  split; [exact Hfail|].
  split; [by apply (dial_fails (λ dl protos, DialAddrContext _ _ protos (QuicConfig dl)))|].
  split; [by apply (dial_fails (λ dl protos, DialAddrContext _ _ protos (QuicConfig dl)))|].
  split; by apply (dial_fails (λ dl protos, DialContext _ _ _ _ protos (QuicConfig dl))).
Qed.

(** C7: with a non-empty Protocol, [tlsConfig] returns a configuration
    whose NextProtos reads as Protocol followed by the caller's list; its
    first entry is Protocol. *)
Theorem tlsConfig_prepends_protocol w d dl :
  dialers w !! d = Some dl →
  Protocol dl ≠ "" →
  slice_ok w (NextProtos (caller_cfg w dl)) →
  ∃ conf cfg w',
    Dialer_tlsConfig spare d w = (Return conf, w') ∧
    configs w' !! conf = Some cfg ∧
    elems_in w' (NextProtos cfg)
      = Protocol dl :: elems_in w (NextProtos (caller_cfg w dl)) ∧
    head (elems_in w' (NextProtos cfg)) = Some (Protocol dl).
Proof.
  intros Hd Hp Hok.
  destruct (tlsConfig_run w d) as (w' & s' & Heq & _ & _ & Hc & _ & _ & Hne).
  rewrite Hd in Hne, Hc. simpl in Hne, Hc.
  destruct (Hne Hp) as [Hlen Hel]. specialize (Hel Hok).
  rewrite decide_False in Heq by done.
  eexists _, _, w'. split; [exact Heq|].
  split; [rewrite Hc; apply lookup_insert_eq|].
  simpl. by rewrite Hel.
Qed.

(** C10: resolving the configuration, and every dial operation built on
    it, leaves each dialer, each TLS configuration and each backing array
    of the caller as it was: the clone and the new slice live at fresh
    addresses. *)
Theorem dial_preserves_caller_memory w d ctx address pconn raddr host :
  preserved w (Dialer_tlsConfig spare d w).2 ∧
  preserved w (Dialer_DialContext spare quic_dial d ctx address w).2 ∧
  preserved w (Dialer_Dial spare quic_dial d address w).2 ∧
  preserved w (Dialer_ClientContext spare quic_dial d ctx pconn raddr host w).2 ∧
  preserved w (Dialer_Client spare quic_dial d pconn raddr host w).2.
Proof.
  split; [apply tlsConfig_preserved|].
  split; [apply (dial_preserved (λ dl protos, DialAddrContext _ _ protos (QuicConfig dl)))|].
  split; [apply (dial_preserved (λ dl protos, DialAddrContext _ _ protos (QuicConfig dl)))|].
  split; apply (dial_preserved (λ dl protos, DialContext _ _ _ _ protos (QuicConfig dl))).
Qed.

(** C9: the package-level Dial and Client, which dial from a zero
    Dialer, panic with "no protocol specified" for every argument and
    never reach the network. *)
Theorem package_Dial_Client_panic w address pconn raddr host :
  fails_unconfigured (Dial spare quic_dial address) w ∧
  fails_unconfigured (Client spare quic_dial pconn raddr host) w.
Proof.
  set (d := fresh (dom (dialers w))).
  set (w1 := {| dialers := <[d := zero_Dialer]> (dialers w);
                configs := configs w; arrays := arrays w; net := net w |}).
  assert (Hd : dialers w1 !! d = Some zero_Dialer) by apply lookup_insert_eq.
  pose proof (tlsConfig_fails w1 d zero_Dialer Hd eq_refl eq_refl) as Hfail.
  split.
  - apply (dial_fails (λ dl protos, DialAddrContext None address protos (QuicConfig dl)))
      in Hfail.
    exact Hfail.
  - apply (dial_fails (λ dl protos, DialContext None pconn raddr host protos (QuicConfig dl)))
      in Hfail.
    exact Hfail.
Qed.

End DialFacts.

(** * Properties of the connection *)

(** ** Reachable states *)

Lemma newConn_Inv : Inv newConn.
Proof.
  split; simpl; try done.
  by intros [].
Qed.

Lemma lookup_insert_Some_inv {A} (l : list A) i j x y :
  <[i := x]> l !! j = Some y → (i = j ∧ y = x) ∨ l !! j = Some y.
Proof.
  destruct (decide (i = j)) as [->|Hne].
  - destruct (decide (j < length l)).
    + rewrite list_lookup_insert_eq by done. intros [= <-]. by left.
    + rewrite list_insert_ge by lia. by right.
  - rewrite list_lookup_insert_ne by done. by right.
Qed.

Lemma lookup_snoc_Some_inv {A} (l : list A) j x y :
  (l ++ [x]) !! j = Some y → y = x ∨ l !! j = Some y.
Proof.
  intros H. apply lookup_app_Some in H as [H|[_ H]]; [by right|].
  left. destruct (j - length l); simpl in H; by simplify_eq.
Qed.

Ltac step_inv H :=
  unfold step, loop_accept, loop_report, acceptStreams_main,
    acceptStreams_watcher, AcceptStream_ctx, AcceptStream_recv,
    AcceptStream_closed, AcceptStream_step, CloseWithError_once,
    CloseWithError_session, Close_call, CloseWithError_call, do_panic,
    Lock, RLock in H;
  repeat (case_match || case_bool_decide || simplify_option_eq);
  simplify_eq; simpl in *.

Ltac lookup_cases Hl :=
  first [ apply lookup_insert_Some_inv in Hl as [[-> ->]|Hl]
        | apply lookup_snoc_Some_inv in Hl as [->|Hl] ].

(** Saturate the context with what the invariant says of the facts at
    hand, then close the goal. *)
Ltac leaf :=
  intros; simpl in *;
  repeat match goal with
  | k : Kind |- _ => destruct k; simpl in *
  | H : _ ∧ _ |- _ => destruct H
  | H : ∃ _, _ |- _ => destruct H
  | H : is_Some _ |- _ => destruct H
  | H : _ && _ = true |- _ => apply andb_true_iff in H
  | H : ∀ x, ?f ?s = ?c x → _, H' : ?f ?s = ?c _ |- _ =>
      pose proof (H _ H'); clear H
  | H : ∀ x, ?f ?s = ?c x → _, H' : ?f ?s = _ |- _ =>
      clear H
  | H : ?P → _ |- _ =>
      match type of P with
      | Prop => let HP := fresh in
                assert (HP : P) by (done || congruence); specialize (H HP); clear HP
      end
  | |- context [match apc ?c with _ => _ end] => destruct (apc c) eqn:?
  | H : context [match apc ?c with _ => _ end] |- _ => destruct (apc c) eqn:?
  end;
  simplify_eq; simpl in *;
  repeat match goal with
  | H : ?f ?s = _ |- _ => is_var s; rewrite H in *; simpl in *
  end;
  simplify_eq; simpl in *;
  try done; try congruence;
  try (by exists Bidi); try (by exists Uni); eauto 4.

Ltac callers_goal Hc :=
  match goal with
  | |- ∀ (i : nat) (c : Caller), _ !! i = Some c → _ =>
      let Hl := fresh "Hl" in
      intros ?i ?c Hl; try lookup_cases Hl; simpl;
      repeat match goal with
      | Ha : accepts _ !! _ = Some _ |- _ => apply Hc in Ha
      end; clear Hc
  end.

Lemma step_Inv s l s' e : Inv s → step s l = Some (s', e) → Inv s'.
Proof.
  intros HI Hstep. destruct l.
  all: step_inv Hstep.
  all: destruct HI as [Hp Hd Hs Hld Hes Hef Hec Hck Hlk Herr Hw Hc].
  all: split; simpl in *; try done.
  all: try congruence.
  all: try callers_goal Hc.
  all: pose proof (Hes Bidi) as HesB; pose proof (Hes Uni) as HesU; clear Hes;
       simpl in HesB, HesU.
  all: try solve [leaf].
  all: try (match goal with Hp : panicked ?s = None |- _ => destruct (main s) eqn:? end;
            solve [leaf]).
Qed.

Lemma countb_snoc {A} (f : A → bool) l x :
  countb f (l ++ [x]) = countb f l + (if f x then 1 else 0).
Proof.
  unfold countb. rewrite List.filter_app, length_app. simpl.
  by destruct (f x).
Qed.

Lemma countb_insert {A} (f : A → bool) l j x y :
  l !! j = Some x →
  countb f (<[j := y]> l) + (if f x then 1 else 0)
  = countb f l + (if f y then 1 else 0).
Proof.
  unfold countb. revert j. induction l as [|a l IH]; intros [|j] Hj; simplify_eq/=.
  - destruct (f x), (f y); simpl; lia.
  - specialize (IH _ Hj). destruct (f a); simpl; lia.
Qed.

Lemma newConn_EInv : EInv newConn [].
Proof.
  split; simpl; try done.
  - by intros [].
  - unfold countb; simpl. split; [done|lia].
  - intros ?? H. by apply elem_of_nil in H.
  - by intros [].
  - intros ??? H. by apply elem_of_nil in H.
Qed.

(** ** Events of reachable states *)

(** Case analysis on a step, touching nothing but the step itself. *)
Ltac step_split H :=
  unfold step, loop_accept, loop_report, acceptStreams_main,
    acceptStreams_watcher, AcceptStream_ctx, AcceptStream_recv,
    AcceptStream_closed, AcceptStream_step, CloseWithError_once,
    CloseWithError_session, Close_call, CloseWithError_call, do_panic,
    Lock, RLock in H;
  repeat match type of H with
  | context [bool_decide ?P] =>
      destruct (decide P);
      [rewrite bool_decide_eq_true_2 in H by done
      |rewrite bool_decide_eq_false_2 in H by done]
  | context [match ?x with _ => _ end] => destruct x eqn:?; simpl in H
  | context [mbind _ ?x] => destruct x eqn:?; simpl in H
  end;
  try discriminate H;
  injection H as <- <-.

Ltac step_cases HI Hstep l :=
  let HI' := fresh "HI'" in
  pose proof (step_Inv _ _ _ _ HI Hstep) as HI';
  apply inv_panic in HI';
  destruct l; step_split Hstep; try discriminate HI'; clear HI'.

Lemma step_no_panic s l s' e :
  Inv s → step s l = Some (s', e) → panics e = [].
Proof.
  intros HI Hstep. step_cases HI Hstep l; done.
Qed.

Lemma step_writes s l s' e evs :
  Inv s → writes evs = option_list (c_streamErr s) →
  step s l = Some (s', e) →
  writes (evs ++ e) = option_list (c_streamErr s').
Proof.
  intros HI Ew Hstep. unfold writes in *. rewrite omap_app, Ew.
  pose proof (inv_err _ HI) as Herr.
  step_cases HI Hstep l; simpl; rewrite ?app_nil_r; try done.
  all: simpl in Herr; by rewrite Herr.
Qed.

(** Rewrite the goal with what is known of the state. *)
Ltac by_state :=
  simpl;
  repeat match goal with
  | H : ?f ?s = _ |- _ => is_var s; rewrite H; simpl
  end;
  try done.

Lemma step_stream_closes s l s' e evs :
  Inv s → stream_closes evs = (if c_streams s then [()] else []) →
  step s l = Some (s', e) →
  stream_closes (evs ++ e) = if c_streams s' then [()] else [].
Proof.
  intros HI Ew Hstep. unfold stream_closes in *. rewrite omap_app, Ew. clear Ew.
  step_cases HI Hstep l; simpl; rewrite ?app_nil_r; by_state.
Qed.

Lemma step_done_closes s l s' e evs :
  Inv s → done_closes evs = (if c_closer s then [()] else []) →
  step s l = Some (s', e) →
  done_closes (evs ++ e) = if c_closer s' then [()] else [].
Proof.
  intros HI Ew Hstep. unfold done_closes in *. rewrite omap_app, Ew. clear Ew.
  step_cases HI Hstep l; simpl; rewrite ?app_nil_r; by_state.
Qed.

Lemma countb_insert_eq {A} (f : A → bool) l j x y :
  l !! j = Some x → f y = f x → countb f (<[j := y]> l) = countb f l.
Proof.
  intros Hl Hf. pose proof (countb_insert f l j x y Hl) as H.
  rewrite Hf in H. lia.
Qed.

Lemma countb_insert_S {A} (f : A → bool) l j x y :
  l !! j = Some x → f x = false → f y = true →
  countb f (<[j := y]> l) = S (countb f l).
Proof.
  intros Hl Hx Hy. pose proof (countb_insert f l j x y Hl) as H.
  rewrite Hx, Hy in H. lia.
Qed.

Lemma step_closer s l s' e :
  Inv s →
  (c_closer s = true ↔ 0 < countb close_past_once (closes s)) →
  step s l = Some (s', e) →
  c_closer s' = true ↔ 0 < countb close_past_once (closes s').
Proof.
  intros HI Ecl Hstep. revert Ecl.
  step_cases HI Hstep l; simpl; intros Ecl; try done.
  all: rewrite ?countb_snoc; simpl; rewrite ?Nat.add_0_r; try done.
  - erewrite countb_insert_S; [split; [lia|done]|done| |done].
    unfold close_past_once.
    match goal with H : cpc _ = _ |- _ => by rewrite H end.
  - erewrite countb_insert_S; [split; [lia|done]|done| |done].
    unfold close_past_once.
    match goal with H : cpc _ = _ |- _ => by rewrite H end.
  - erewrite countb_insert_eq; [done|done|].
    unfold close_past_once; simpl.
    match goal with H : cpc _ = _ |- _ => by rewrite H end.
Qed.

Lemma step_session_closes s l s' e evs :
  Inv s →
  length (session_closes evs) = countb close_returned (closes s) →
  step s l = Some (s', e) →
  length (session_closes (evs ++ e)) = countb close_returned (closes s').
Proof.
  intros HI Ess Hstep. unfold session_closes in *.
  rewrite omap_app, length_app, Ess. clear Ess.
  step_cases HI Hstep l; simpl; rewrite ?countb_snoc; simpl; try lia.
  - erewrite countb_insert_eq; [lia|done|].
    unfold close_returned; simpl.
    match goal with H : cpc _ = _ |- _ => by rewrite H end.
  - erewrite countb_insert_eq; [lia|done|].
    unfold close_returned; simpl.
    match goal with H : cpc _ = _ |- _ => by rewrite H end.
  - erewrite countb_insert_S; [lia|done| |done].
    unfold close_returned; simpl.
    match goal with H : cpc _ = _ |- _ => by rewrite H end.
Qed.

Lemma step_reports_head s l s' e evs :
  Inv s →
  eg_err s = snd <$> head (reports evs) →
  step s l = Some (s', e) →
  eg_err s' = snd <$> head (reports (evs ++ e)).
Proof.
  intros HI Erh Hstep. unfold reports in *. rewrite omap_app.
  revert Erh.
  step_cases HI Hstep l; simpl; rewrite ?app_nil_r; intros Erh; try done.
  - destruct (omap _ evs) as [|[? ?] ?]; simpl in *; congruence.
  - destruct (omap _ evs) as [|[? ?] ?]; simpl in *; congruence.
Qed.

Lemma step_closed_return s l s' e evs :
  Inv s →
  (∀ i r, EvClosedReturn i r ∈ evs → c_streams s = true ∧ r = c_streamErr s) →
  step s l = Some (s', e) →
  ∀ i r, EvClosedReturn i r ∈ evs ++ e → c_streams s' = true ∧ r = c_streamErr s'.
Proof.
  intros HI Ecr Hstep i0 r0 Hin.
  apply elem_of_app in Hin as [Hin|Hin].
  - apply Ecr in Hin as [Hc Hr]. clear Ecr.
    pose proof (inv_streams _ HI) as Hs. rewrite Hc in Hs.
    step_cases HI Hstep l; simpl; try done.
    all: match goal with H : main _ = _ |- _ => by rewrite H in Hs end.
  - clear Ecr. revert Hin.
    step_cases HI Hstep l; simpl; intros Hin.
    all: try (by apply elem_of_nil in Hin).
    all: apply list_elem_of_singleton in Hin; try discriminate Hin.
    all: injection Hin as -> ->.
    all: match goal with H : accepts _ !! _ = Some _ |- _ =>
           apply (inv_callers _ HI) in H end.
    all: match goal with H : apc _ = _, H' : context [apc _] |- _ =>
           rewrite H in H' end.
    all: done.
Qed.

Lemma reports_app evs e : reports (evs ++ e) = reports evs ++ reports e.
Proof. apply omap_app. Qed.

Lemma loop_ok_mono k pc evs e : loop_ok k pc evs → loop_ok k pc (evs ++ e).
Proof.
  destruct pc; simpl; rewrite ?reports_app; [done|..].
  - intros (h & ? & ?). exists h. split; [done|]. apply elem_of_app; by left.
  - intros ?. apply elem_of_app; by left.
  - intros [? ?]. split; apply elem_of_app; by left.
Qed.

Lemma elem_of_snoc {A} (l : list A) x : x ∈ l ++ [x].
Proof. apply elem_of_app; right. by apply list_elem_of_singleton. Qed.

Lemma step_loop s l s' e evs :
  Inv s →
  (∀ k, loop_ok k (loop k s) evs) →
  step s l = Some (s', e) →
  ∀ k, loop_ok k (loop k s') (evs ++ e).
Proof.
  intros HI El Hstep k0.
  pose proof (loop_ok_mono k0 _ _ e (El k0)) as Hold.
  step_cases HI Hstep l; simpl in *; try done.
  all: destruct k0, k; simpl in *; try done.
  all: try apply elem_of_snoc.
  all: try (exists h; split; [done|apply elem_of_snoc]).
  all: split; [|rewrite reports_app; apply elem_of_snoc].
  all: match goal with H : _ = LReturned _ |- _ => by rewrite H in Hold end.
Qed.

Lemma step_recv s l s' e evs :
  Inv s →
  (∀ k, loop_ok k (loop k s) evs) →
  (∀ i k st, EvRecv i k st ∈ evs →
     ∃ h, st = stream_of k h ∧ EvAccepted k h ∈ evs) →
  step s l = Some (s', e) →
  ∀ i k st, EvRecv i k st ∈ evs ++ e →
    ∃ h, st = stream_of k h ∧ EvAccepted k h ∈ evs ++ e.
Proof.
  intros HI El Erc Hstep i0 k0 st0 Hin.
  apply elem_of_app in Hin as [Hin|Hin].
  { apply Erc in Hin as (h & ? & ?). exists h. split; [done|].
    apply elem_of_app; by left. }
  clear Erc. revert Hin.
  step_cases HI Hstep l; simpl; intros Hin.
  all: try (by apply elem_of_nil in Hin).
  all: apply list_elem_of_singleton in Hin; try discriminate Hin.
  injection Hin as -> -> ->.
  specialize (El k).
  match goal with H : loop _ _ = LSend _ |- _ => rewrite H in El end.
  destruct El as (h & ? & ?). exists h. split; [done|].
  apply elem_of_app; by left.
Qed.

Lemma step_fifo s l s' e evs :
  Inv s →
  (∀ k, delivered k evs ++ pending k s = stream_of k <$> accepted k evs) →
  step s l = Some (s', e) →
  ∀ k, delivered k (evs ++ e) ++ pending k s'
       = stream_of k <$> accepted k (evs ++ e).
Proof.
  intros HI Ef Hstep k0. specialize (Ef k0). revert Ef.
  unfold accepted, delivered, pending. rewrite !omap_app.
  step_cases HI Hstep l; simpl; rewrite ?app_nil_r; try done.
  all: destruct k0, k; simpl in *; rewrite ?app_nil_r; try done.
  all: repeat match goal with
       | H : loop_bidi _ = _ |- _ => rewrite H
       | H : loop_uni _ = _ |- _ => rewrite H
       end.
  all: rewrite ?fmap_app, ?app_nil_r; simpl; intros Ef; rewrite <- ?Ef; try done.
Qed.

Lemma step_EInv s l s' e evs :
  Inv s → EInv s evs → step s l = Some (s', e) → EInv s' (evs ++ e).
Proof.
  intros HI [Ep Ew Esc Erh El Edc Ecl Ess Ecr Ef Erc] Hstep. split.
  - unfold panics in *. rewrite omap_app, Ep.
    by apply (step_no_panic s l s' e).
  - by eapply step_writes.
  - by eapply step_stream_closes.
  - by eapply step_reports_head.
  - by eapply step_loop.
  - by eapply step_done_closes.
  - by eapply step_closer.
  - by eapply step_session_closes.
  - by eapply step_closed_return.
  - by eapply step_fifo.
  - by eapply step_recv.
Qed.

Lemma run_Inv tr : ∀ s evs0 s' evs,
  Inv s → EInv s evs0 → run s tr = Some (s', evs) →
  Inv s' ∧ EInv s' (evs0 ++ evs).
Proof.
  induction tr as [|l tr IH]; intros s evs0 s' evs HI HE Hrun; simpl in Hrun.
  - simplify_eq. by rewrite app_nil_r.
  - destruct (step s l) as [[s1 e1]|] eqn:Hstep; simpl in Hrun; [|done].
    destruct (run s1 tr) as [[s2 e2]|] eqn:Hrun'; simpl in Hrun; [|done].
    simplify_eq. rewrite app_assoc.
    eapply IH; [by eapply step_Inv|by eapply step_EInv|done].
Qed.

Lemma reachable_Inv tr s evs :
  run newConn tr = Some (s, evs) → Inv s ∧ EInv s evs.
Proof.
  intros Hrun.
  by apply (run_Inv tr newConn [] s evs newConn_Inv newConn_EInv).
Qed.

(** ** The lock and the results of AcceptStream *)

Lemma newConn_LockInv : LockInv newConn.
Proof. by split. Qed.

Lemma countb_zero {A} (f : A → bool) (l : list A) :
  (∀ i x, l !! i = Some x → f x = false) → countb f l = 0.
Proof.
  unfold countb. induction l as [|a l IH]; intros H; [done|]. simpl.
  rewrite (H 0 a eq_refl). apply IH. intros i x Hi. by apply (H (S i)).
Qed.

(** While the intake is open no call holds the read lock. *)
Lemma open_no_readers s : Inv s → c_streams s = false → countb reading (accepts s) = 0.
Proof.
  intros HI Hc. apply countb_zero. intros i c Hi.
  pose proof (inv_callers _ HI i c Hi) as H. unfold reading.
  destruct (apc c); try done; [congruence|destruct H; congruence].
Qed.

Lemma step_LockInv s l s' e :
  Inv s → LockInv s → step s l = Some (s', e) → LockInv s'.
Proof.
  intros HI [Hw Hr] Hstep.
  step_cases HI Hstep l; split; simpl; try done.
  all: unfold with_apc, with_caller; simpl.
  all: try (rewrite countb_snoc; simpl; lia).
  all: try match goal with
       | H : accepts ?s !! ?i = Some ?c
         |- context [countb reading (<[?i := ?y]> _)] =>
           pose proof (countb_insert reading _ i c y H) as Hcnt;
           assert (Hrc : reading c
                         = match apc c with ARLocked | ARead _ => true | _ => false end)
             by done;
           assert (Hry : reading y
                         = match apc y with ARLocked | ARead _ => true | _ => false end)
             by done;
           simpl in Hry
       end.
  all: repeat match goal with
       | H : apc ?c = _ |- _ => rewrite H in *; simpl in *
       | H : main ?s = _ |- _ => rewrite H in *; simpl in *
       | H : writer _ = _ |- _ => rewrite H in *; simpl in *
       | H : readers _ = _ |- _ => rewrite H in *; simpl in *
       end.
  all: try done; try lia.
  all: try (rewrite <- Hrc in Hry).
  all: rewrite ?Hrc, ?Hry in Hcnt; try lia.
  all: try (destruct (reading c); lia).
  rewrite <- Hrc in Hcnt. destruct (reading c); lia.
Qed.

Lemma newConn_returned_ok i c : accepts newConn !! i = Some c → returned_ok c.
Proof. done. Qed.

(** Once the intake is closed the stored error is not nil. *)
Lemma closed_error_stored s : Inv s → c_streams s = true → is_Some (c_streamErr s).
Proof.
  intros HI Hc.
  pose proof (inv_streams _ HI) as Hs. rewrite Hc in Hs.
  destruct (main s) eqn:Hm; try done.
  destruct (inv_loops_done _ HI) as [Hb _]; [congruence|].
  destruct (loop_bidi s) as [| | |eb] eqn:Hlb; try done.
  pose proof (inv_err _ HI) as Herr. rewrite Hm in Herr. simpl in Herr.
  rewrite Herr. by apply (inv_eg_some _ HI Bidi eb).
Qed.

Lemma step_returned_ok s l s' e :
  Inv s → (∀ i c, accepts s !! i = Some c → returned_ok c) →
  step s l = Some (s', e) →
  ∀ i c, accepts s' !! i = Some c → returned_ok c.
Proof.
  intros HI Hok Hstep.
  pose proof (closed_error_stored _ HI) as Herr.
  pose proof (inv_callers _ HI) as Hcl.
  step_cases HI Hstep l; simpl; try done.
  all: intros i' c' Hl; lookup_cases Hl; try (by eapply Hok); try done.
  all: match goal with H : accepts _ !! _ = Some ?c |- _ =>
         pose proof (Hok _ _ H) as Hr; pose proof (Hcl _ _ H) as Hc
       end.
  all: unfold returned_ok in *; simpl.
  all: try exact Hr.
  all: match goal with H : apc ?c = _ |- _ => rewrite H in Hc end.
  all: try done.
  all: destruct Hc as [Hc ->]; by destruct (Herr Hc) as [x ->].
Qed.

Lemma newConn_Good : Good newConn.
Proof. split; [apply newConn_Inv|apply newConn_LockInv|apply newConn_returned_ok]. Qed.

Lemma step_Good s l s' e : Good s → step s l = Some (s', e) → Good s'.
Proof.
  intros [HI HL HR] Hstep. split.
  - by eapply step_Inv.
  - by eapply step_LockInv.
  - by eapply step_returned_ok.
Qed.

Lemma run_Good tr : ∀ s s' evs, Good s → run s tr = Some (s', evs) → Good s'.
Proof.
  induction tr as [|l tr IH]; intros s s' evs HG Hrun; simpl in Hrun.
  - by simplify_eq.
  - destruct (step s l) as [[s1 e1]|] eqn:Hstep; simpl in Hrun; [|done].
    destruct (run s1 tr) as [[s2 e2]|] eqn:Hrun'; simpl in Hrun; [|done].
    simplify_eq. eapply IH; [by eapply step_Good|done].
Qed.

Lemma reachable_Good tr s evs : run newConn tr = Some (s, evs) → Good s.
Proof. apply run_Good, newConn_Good. Qed.

Lemma run_cons s l tr s1 e1 s2 e2 :
  step s l = Some (s1, e1) → run s1 tr = Some (s2, e2) →
  run s (l :: tr) = Some (s2, e1 ++ e2).
Proof. intros H1 H2. simpl. rewrite H1. simpl. by rewrite H2. Qed.

(** A call that has seen the closed intake takes the read lock, reads
    [c.streamErr], releases the lock and returns the stored error. *)
Lemma closed_call_returns s i c :
  Good s → accepts s !! i = Some c → apc c = AClosed →
  ∃ e s',
    c_streamErr s = Some e ∧
    run s [AcceptStep i; AcceptStep i; AcceptStep i]
    = Some (s', [EvClosedReturn i (Some e)]) ∧
    accepts s' !! i = Some {| cctx := cctx c; apc := ADone None (Some e) |} ∧
    c_streamLock s' = c_streamLock s.
Proof.
  intros [HI [Hw Hr] _] Hi Hpc.
  pose proof (inv_callers _ HI i c Hi) as Hc. rewrite Hpc in Hc.
  destruct (closed_error_stored s HI Hc) as [e He].
  pose proof (inv_panic _ HI) as Hp.
  pose proof (inv_streams _ HI) as Hs. rewrite Hc in Hs.
  destruct (main s) eqn:Hm; try done. simpl in Hw.
  pose proof (lookup_lt_Some _ _ _ Hi) as Hlt.
  exists e. unfold run, step, AcceptStream_step.
  rewrite bool_decide_eq_true_2 by done. rewrite Hi. simpl. rewrite Hpc.
  unfold RLock. rewrite Hw. simpl.
  rewrite bool_decide_eq_true_2 by done.
  rewrite list_lookup_insert_eq by done. simpl.
  rewrite bool_decide_eq_true_2 by done.
  rewrite list_lookup_insert_eq by (by rewrite length_insert). simpl.
  rewrite He. eexists. split; [done|]. split; [done|]. simpl.
  split.
  - rewrite list_lookup_insert_eq; [done|]. by rewrite !length_insert.
  - unfold RUnlock. simpl. destruct (c_streamLock s) as [w r]. simpl in *.
    by rewrite Hw.
Qed.

(** A call waiting in its select when the intake is closed can take the
    closed-intake case, and then returns the stored error. *)
Lemma select_closed_returns s i c :
  Good s → accepts s !! i = Some c → apc c = ASelect → c_streams s = true →
  ∃ e s',
    c_streamErr s = Some e ∧
    run s [AcceptRecvClosed i; AcceptStep i; AcceptStep i; AcceptStep i]
    = Some (s', [EvClosedReturn i (Some e)]) ∧
    accepts s' !! i = Some {| cctx := cctx c; apc := ADone None (Some e) |} ∧
    c_streamLock s' = c_streamLock s.
Proof.
  intros HG Hi Hpc Hc.
  pose proof (inv_panic _ (good_inv _ HG)) as Hp.
  pose proof (lookup_lt_Some _ _ _ Hi) as Hlt.
  assert (Hs1 : step s (AcceptRecvClosed i) = Some (with_apc i c AClosed s, [])).
  { unfold step, AcceptStream_closed.
    rewrite bool_decide_eq_true_2 by done. rewrite Hi. simpl. by rewrite Hpc, Hc. }
  pose proof (step_Good _ _ _ _ HG Hs1) as HG1.
  destruct (closed_call_returns (with_apc i c AClosed s) i
              {| cctx := cctx c; apc := AClosed |} HG1)
    as (e & s' & He & Hrun & Ha & Hl).
  { simpl. by rewrite list_lookup_insert_eq. }
  { done. }
  exists e, s'. split; [exact He|]. split; [|split; [exact Ha|exact Hl]].
  exact (run_cons _ _ _ _ [] _ _ Hs1 Hrun).
Qed.

(** ** The claims on the multiplexer and on closing *)

Lemma step_enabled_bool s : panicked s = None → bool_decide (panicked s = None) = true.
Proof. intros. by apply bool_decide_eq_true_2. Qed.

Lemma offered_stream_open s k st :
  Inv s → loop k s = LSend st → c_streams s = false.
Proof.
  intros HI Hl. rewrite (inv_streams _ HI). destruct (main s) eqn:Hm; try done.
  destruct (inv_loops_done _ HI) as [Hb Hu]; [congruence|].
  destruct k; simpl in Hl; rewrite Hl in *; done.
Qed.

(** A call waiting in its select can take the stream a loop offers. *)
Lemma AcceptRecv_enabled s k st i c :
  Inv s → loop k s = LSend st → accepts s !! i = Some c → apc c = ASelect →
  step s (AcceptRecv i k)
  = Some (with_apc i c (ADone (Some st) None) (with_loop k LAccept s),
          [EvRecv i k st]).
Proof.
  intros HI Hl Hi Hpc. unfold step, AcceptStream_recv.
  rewrite (step_enabled_bool _ (inv_panic _ HI)), Hi. simpl.
  by rewrite Hpc, Hl, (offered_stream_open s k st HI Hl).
Qed.

(** C4: along every interleaving and for each kind, the streams
    AcceptStream has returned, followed by the one the loop still offers
    on the intake (at most one), are exactly the streams the loop made of
    the handles the session's accept calls returned, in that order: none
    is lost, duplicated or reordered.  The offered stream is received by
    any call that is waiting in its select. *)
Theorem streams_delivered_once_in_order tr s evs k :
  run newConn tr = Some (s, evs) →
  delivered k evs ++ pending k s = stream_of k <$> accepted k evs ∧
  length (pending k s) ≤ 1 ∧
  ∀ st i c, loop k s = LSend st → accepts s !! i = Some c → apc c = ASelect →
    ∃ s', step s (AcceptRecv i k) = Some (s', [EvRecv i k st]) ∧
          accepts s' !! i = Some {| cctx := cctx c; apc := ADone (Some st) None |} ∧
          loop k s' = LAccept.
Proof.
  intros Hrun. apply reachable_Inv in Hrun as [HI HE].
  split; [apply (ev_fifo _ _ HE)|].
  split; [unfold pending; destruct (loop k s); simpl; lia|].
  intros st i c Hl Hi Hpc.
  rewrite (AcceptRecv_enabled s k st i c HI Hl Hi Hpc).
  eexists. split; [done|]. simpl. split.
  - apply list_lookup_insert_eq. by eapply lookup_lt_Some.
  - by destruct k.
Qed.

(** C8: a stream received from the intake, or still offered on it, that
    comes from the unidirectional loop is [newStream(c, nil, s)]: its
    send side is nil and its receive side the accepted handle; one from
    the bidirectional loop is [newStream(c, s, s)], the accepted handle
    on both sides. *)
Theorem intake_stream_sides tr s evs k st :
  run newConn tr = Some (s, evs) →
  (∃ i, EvRecv i k st ∈ evs) ∨ loop k s = LSend st →
  ∃ h, EvAccepted k h ∈ evs ∧
       st = match k with
            | Bidi => newStream (Some h) (Some h)
            | Uni => newStream None (Some h)
            end ∧
       recv st = Some h ∧
       send st = match k with Bidi => Some h | Uni => None end.
Proof.
  intros Hrun Hst. apply reachable_Inv in Hrun as [HI HE].
  assert (Hw : ∃ h, st = stream_of k h ∧ EvAccepted k h ∈ evs).
  { destruct Hst as [[i Hin]|Hl].
    - apply (ev_recv _ _ HE i k st Hin).
    - pose proof (ev_loop _ _ HE k) as Hok. by rewrite Hl in Hok. }
  destruct Hw as (h & -> & Hin). exists h.
  split; [done|]. by destruct k.
Qed.

Lemma writes_at_most_once s evs : EInv s evs → length (writes evs) ≤ 1.
Proof.
  intros HE. rewrite (ev_writes _ _ HE). destruct (c_streamErr s); simpl; lia.
Qed.

(** Once the intake is closed, both loops have finished and the stored
    error is the errgroup's, which is the error of one of them. *)
Lemma closed_streams_error s evs :
  Inv s → EInv s evs → c_streams s = true →
  ∃ k e, c_streamErr s = Some e ∧ eg_err s = Some e ∧
         loop k s = LDone e ∧ EvAcceptErr k e ∈ evs.
Proof.
  intros HI HE Hc.
  pose proof (inv_streams _ HI) as Hs. rewrite Hc in Hs.
  destruct (main s) eqn:Hm; try done.
  destruct (inv_loops_done _ HI) as [Hb _]; [congruence|].
  destruct (loop_bidi s) as [| | |eb] eqn:Hlb; try done.
  destruct (inv_eg_some _ HI Bidi eb Hlb) as [e He].
  destruct (inv_eg_from _ HI e He) as [k Hk].
  pose proof (inv_err _ HI) as Herr. rewrite Hm in Herr. simpl in Herr.
  pose proof (ev_loop _ _ HE k) as Hok. rewrite Hk in Hok. destruct Hok as [? _].
  exists k, e. by rewrite Herr.
Qed.

(** C2: along every interleaving, c.streamErr is assigned at most once;
    a call returns it only when the intake is closed, and then the value
    returned is that stored error, which is not nil and is the error the
    accept call of one of the two loops failed with.  Every call that
    observes the closed intake is handed that error: a call waiting in
    its select when the intake is closed can take the closed-intake
    case, and a call that has taken it goes through RLock, the read of
    c.streamErr and RUnlock without blocking and returns no stream and
    the stored error. *)
Theorem terminal_error_once_and_actual tr s evs :
  run newConn tr = Some (s, evs) →
  length (writes evs) ≤ 1 ∧
  (∀ i c, accepts s !! i = Some c → apc c = ARLocked → c_streams s = true) ∧
  (∀ i r, EvClosedReturn i r ∈ evs →
     c_streams s = true ∧ stream_closes evs = [()] ∧ r = c_streamErr s) ∧
  (c_streams s = true →
     ∃ k e, c_streamErr s = Some e ∧ writes evs = [e] ∧
            loop k s = LDone e ∧ EvAcceptErr k e ∈ evs) ∧
  (∀ i c, accepts s !! i = Some c → apc c = ASelect → c_streams s = true →
     ∃ e s',
       c_streamErr s = Some e ∧
       run s [AcceptRecvClosed i; AcceptStep i; AcceptStep i; AcceptStep i]
       = Some (s', [EvClosedReturn i (Some e)]) ∧
       accepts s' !! i = Some {| cctx := cctx c; apc := ADone None (Some e) |}) ∧
  (∀ i c, accepts s !! i = Some c → apc c = AClosed →
     ∃ e s',
       c_streamErr s = Some e ∧
       run s [AcceptStep i; AcceptStep i; AcceptStep i]
       = Some (s', [EvClosedReturn i (Some e)]) ∧
       accepts s' !! i = Some {| cctx := cctx c; apc := ADone None (Some e) |}).
Proof.
  intros Hrun. pose proof (reachable_Good _ _ _ Hrun) as HG.
  apply reachable_Inv in Hrun as [HI HE].
  split; [by eapply writes_at_most_once|].
  split.
  { intros i c Hi Hpc. pose proof (inv_callers _ HI i c Hi) as H.
    by rewrite Hpc in H. }
  split.
  { intros i r Hin. destruct (ev_closed_return _ _ HE i r Hin) as [Hc ->].
    split; [done|]. split; [|done].
    by rewrite (ev_stream_closes _ _ HE), Hc. }
  split.
  { intros Hc.
    destruct (closed_streams_error s evs HI HE Hc) as (k & e & Herr & _ & Hk & Hin).
    exists k, e. split; [done|]. split; [|done].
    by rewrite (ev_writes _ _ HE), Herr. }
  split.
  { intros i c Hi Hpc Hc.
    destruct (select_closed_returns s i c HG Hi Hpc Hc) as (e & s' & H1 & H2 & H3 & _).
    by exists e, s'. }
  intros i c Hi Hpc.
  destruct (closed_call_returns s i c HG Hi Hpc) as (e & s' & H1 & H2 & H3 & _).
  by exists e, s'.
Qed.


(** C5: when a call of AcceptStream takes the branch of its cancelled
    context, it returns (nil, ctx.Err()); the state differs only in that
    call's own record, so a stream a loop offers on the intake is still
    offered, and the next call of AcceptStream receives it. *)
Theorem AcceptStream_cancelled_consumes_nothing tr s evs i s' e :
  run newConn tr = Some (s, evs) →
  step s (AcceptCtxDone i) = Some (s', e) →
  (∃ c err, accepts s !! i = Some c ∧ apc c = ASelect ∧ cctx c = Some err ∧
            e = [EvCtxReturn i (Some err)] ∧
            accepts s' = <[i := {| cctx := Some err; apc := ADone None (Some err) |}]>
                           (accepts s)) ∧
  s' = with_accepts (accepts s') s ∧
  ∀ k st, loop k s = LSend st →
    loop k s' = LSend st ∧
    ∃ s1 s2, step s' CallAcceptStream = Some (s1, []) ∧
             step s1 (AcceptRecv (length (accepts s')) k)
               = Some (s2, [EvRecv (length (accepts s')) k st]) ∧
             accepts s2 !! length (accepts s')
               = Some {| cctx := None; apc := ADone (Some st) None |}.
Proof.
  intros Hrun Hstep.
  apply reachable_Inv in Hrun as [HI _].
  pose proof (step_Inv _ _ _ _ HI Hstep) as HI'.
  unfold step, AcceptStream_ctx in Hstep.
  destruct (bool_decide _); [|done].
  destruct (accepts s !! i) as [c|] eqn:Hi; [|done]. simpl in Hstep.
  destruct (apc c) eqn:Hpc; try done.
  destruct (cctx c) as [err|] eqn:Hctx; [|done].
  injection Hstep as <- <-. split.
  { exists c, err. repeat split; try done. simpl. by rewrite Hctx. }
  split; [done|].
  intros k st Hl.
  assert (Hl' : loop k (with_apc i c (ADone None (Some err)) s) = LSend st)
    by by destruct k.
  split; [done|].
  destruct (step (with_apc i c (ADone None (Some err)) s) CallAcceptStream)
    as [[s1 e1]|] eqn:Hcall.
  2: { unfold step in Hcall.
       by rewrite (step_enabled_bool _ (inv_panic _ HI')) in Hcall. }
  pose proof (step_Inv _ _ _ _ HI' Hcall) as HI1.
  unfold step in Hcall.
  rewrite (step_enabled_bool _ (inv_panic _ HI')) in Hcall.
  injection Hcall as <- <-.
  eexists _, _. split; [done|].
  match type of HI1 with Inv ?s1 =>
    assert (Hnew : accepts s1 !! length (accepts (with_apc i c (ADone None (Some err)) s))
                   = Some {| cctx := None; apc := ASelect |});
    [simpl; rewrite lookup_app_r by done; by rewrite Nat.sub_diag|];
    assert (Hl1 : loop k s1 = LSend st) by (by destruct k)
  end.
  rewrite (AcceptRecv_enabled _ k st _ _ HI1 Hl1 Hnew eq_refl).
  split; [done|]. simpl.
  rewrite list_lookup_insert_eq; [done|]. rewrite length_app. simpl. lia.
Qed.

(** ** A consumer that keeps up receives every arrival *)

Lemma run_app s tr1 tr2 :
  run s (tr1 ++ tr2)
  = '(s1, e1) ← run s tr1; '(s2, e2) ← run s1 tr2; Some (s2, e1 ++ e2).
Proof.
  revert s. induction tr1 as [|l tr1 IH]; intros s; simpl.
  - by destruct (run s tr2) as [[] |].
  - destruct (step s l) as [[s1 e1]|]; simpl; [|done].
    rewrite IH. destruct (run s1 tr1) as [[s2 e2]|]; simpl; [|done].
    destruct (run s2 tr2) as [[s3 e3]|]; simpl; [|done].
    by rewrite app_assoc.
Qed.

Lemma deliver_one s k h :
  ready s →
  ∃ s', run s [LoopAcceptOk k h; CallAcceptStream; AcceptRecv (length (accepts s)) k]
        = Some (s', [EvAccepted k h;
                     EvRecv (length (accepts s)) k (stream_of k h)]) ∧
        ready s' ∧ length (accepts s') = S (length (accepts s)).
Proof.
  intros (Hp & Hc & Hb & Hu).
  unfold run, step, loop_accept, AcceptStream_recv.
  rewrite bool_decide_eq_true_2 by done.
  destruct k; simpl; rewrite ?Hb, ?Hu; simpl.
  all: rewrite bool_decide_eq_true_2 by done; simpl.
  all: rewrite bool_decide_eq_true_2 by done; simpl.
  all: rewrite lookup_app_r by done; rewrite Nat.sub_diag; simpl; rewrite Hc; simpl.
  all: eexists; split; [reflexivity|]; split; [by repeat split|].
  all: unfold with_apc, with_caller; simpl.
  all: rewrite length_insert, length_app; simpl; lia.
Qed.

Lemma deliver_all_from arr : ∀ s, ready s →
  ∃ s' evs, run s (deliver_all (length (accepts s)) arr) = Some (s', evs) ∧
    ready s' ∧
    ∀ k, accepted k evs = arrivals_of k arr ∧
         delivered k evs = stream_of k <$> arrivals_of k arr.
Proof.
  induction arr as [|[k h] arr IH]; intros s Hs.
  - exists s, []. split; [done|]. split; [done|]. intros k. by split.
  - destruct (deliver_one s k h Hs) as (s1 & Hrun1 & Hs1 & Hlen).
    destruct (IH s1 Hs1) as (s2 & evs2 & Hrun2 & Hs2 & Hall).
    rewrite Hlen in Hrun2.
    eexists s2, (_ :: _ :: evs2).
    split; [|split; [done|]].
    + cbn [deliver_all]. rewrite run_app, Hrun1. simpl. by rewrite Hrun2.
    + intros k'. destruct (Hall k') as [Ha Hd].
      unfold accepted, delivered, arrivals_of in *.
      destruct k, k'; simpl; (split; [try f_equal; exact Ha|try f_equal; exact Hd]).
Qed.

(** For any sequence of arrivals of the two kinds there is an
    interleaving in which the session returns exactly these arrivals and
    AcceptStream returns every one of them, in arrival order within each
    kind. *)
Lemma all_arrivals_delivered arr :
  ∃ s evs, run newConn (deliver_all 0 arr) = Some (s, evs) ∧
    ∀ k, accepted k evs = arrivals_of k arr ∧
         delivered k evs = stream_of k <$> arrivals_of k arr ∧
         pending k s = [].
Proof.
  destruct (deliver_all_from arr newConn) as (s & evs & Hrun & (_ & _ & Hb & Hu) & Hall).
  { by repeat split. }
  exists s, evs. split; [done|]. intros k. destruct (Hall k) as [? ?].
  repeat split; [done|done|]. unfold pending. by destruct k; simpl; rewrite ?Hb, ?Hu.
Qed.

(** C1, as the code has it: along every interleaving no call panics and
    c.done is closed at most once, exactly when some call has gone
    through c.closer; session.CloseWithError, which is outside the guard,
    is invoked once by every call that has returned. *)
Theorem close_guards_done_only tr s evs :
  run newConn tr = Some (s, evs) →
  panics evs = [] ∧
  length (done_closes evs) ≤ 1 ∧
  (done_closes evs = [()] ↔ 0 < countb close_past_once (closes s)) ∧
  c_done s = c_closer s ∧
  length (session_closes evs) = countb close_returned (closes s).
Proof.
  intros Hrun. apply reachable_Inv in Hrun as [HI HE].
  split; [apply (ev_panics _ _ HE)|].
  pose proof (ev_done_closes _ _ HE) as Hd.
  pose proof (ev_closer _ _ HE) as Hc.
  split; [rewrite Hd; destruct (c_closer s); simpl; lia|].
  split.
  { rewrite Hd, <- Hc. destruct (c_closer s); split; done. }
  split; [apply (inv_done _ HI)|apply (ev_session_closes _ _ HE)].
Qed.

Lemma close_guards_done_only_witness :
  run newConn trace_two_closes
    = Some (state_after trace_two_closes, events_after trace_two_closes) ∧
  length (done_closes (events_after trace_two_closes)) ≤ 1 ∧
  length (session_closes (events_after trace_two_closes)) = 2.
Proof.
  assert (H : run newConn trace_two_closes
              = Some (state_after trace_two_closes, events_after trace_two_closes))
    by (vm_compute; reflexivity).
  pose proof (close_guards_done_only _ _ _ H) as (_ & Hd & _ & _ & Hs).
  split; [exact H|]. split; [exact Hd|]. rewrite Hs. reflexivity.
Defined.

(** C1, as stated, fails: two calls of Close() in a row both run to the
    end and the session's CloseWithError is invoked twice, so it is not
    invoked at most once along every interleaving. *)
Lemma Close_twice_closes_session_twice :
  session_closes (events_after trace_two_closes) = [(0%N, ""); (0%N, "")] ∧
  ¬ (∀ tr s evs, run newConn tr = Some (s, evs) →
       length (session_closes evs) ≤ 1).
Proof.
  assert (Hlog : session_closes (events_after trace_two_closes)
                 = [(0%N, ""); (0%N, "")]) by (vm_compute; reflexivity).
  split; [exact Hlog|].
  intros Hclaim.
  assert (H : run newConn trace_two_closes
              = Some (state_after trace_two_closes, events_after trace_two_closes))
    by (vm_compute; reflexivity).
  apply Hclaim in H. rewrite Hlog in H. simpl in H. lia.
Qed.

Lemma terminal_error_once_and_actual_witness :
  run newConn trace_shutdown
    = Some (state_after trace_shutdown, events_after trace_shutdown) ∧
  length (writes (events_after trace_shutdown)) ≤ 1 ∧
  c_streamErr (state_after trace_shutdown) = Some "NO_ERROR" ∧
  run newConn trace_late_call
    = Some (state_after trace_late_call, events_after trace_late_call) ∧
  ∃ s',
    run (state_after trace_late_call)
      [AcceptRecvClosed 0; AcceptStep 0; AcceptStep 0; AcceptStep 0]
    = Some (s', [EvClosedReturn 0 (Some "timeout")]) ∧
    accepts s' !! 0 = Some {| cctx := None; apc := ADone None (Some "timeout") |}.
Proof.
  assert (H : run newConn trace_shutdown
              = Some (state_after trace_shutdown, events_after trace_shutdown))
    by (vm_compute; reflexivity).
  pose proof (terminal_error_once_and_actual _ _ _ H) as (Hw & _).
  split; [exact H|]. split; [exact Hw|]. split; [reflexivity|].
  assert (H' : run newConn trace_late_call
               = Some (state_after trace_late_call, events_after trace_late_call))
    by (vm_compute; reflexivity).
  split; [exact H'|].
  pose proof (terminal_error_once_and_actual _ _ _ H') as (_ & _ & _ & _ & Hsel & _).
  destruct (Hsel 0 {| cctx := None; apc := ASelect |} eq_refl eq_refl eq_refl)
    as (e & s' & He & Hrun & Ha).
  assert (Hv : c_streamErr (state_after trace_late_call) = Some "timeout")
    by (vm_compute; reflexivity).
  rewrite Hv in He. injection He as <-.
  exists s'. split; [exact Hrun|exact Ha].
Defined.


Lemma streams_delivered_once_in_order_witness :
  run newConn trace_deliver
    = Some (state_after trace_deliver, events_after trace_deliver) ∧
  delivered Bidi (events_after trace_deliver)
    ++ pending Bidi (state_after trace_deliver)
  = stream_of Bidi <$> accepted Bidi (events_after trace_deliver).
Proof.
  assert (H : run newConn trace_deliver
              = Some (state_after trace_deliver, events_after trace_deliver))
    by (vm_compute; reflexivity).
  split; [exact H|].
  exact (proj1 (streams_delivered_once_in_order _ _ _ Bidi H)).
Defined.

Lemma intake_stream_sides_witness :
  run newConn trace_deliver
    = Some (state_after trace_deliver, events_after trace_deliver) ∧
  ∃ h, EvAccepted Uni h ∈ events_after trace_deliver ∧
       newStream None (Some 8) = newStream None (Some h) ∧
       recv (newStream None (Some 8)) = Some h ∧
       send (newStream None (Some 8)) = None.
Proof.
  assert (H : run newConn trace_deliver
              = Some (state_after trace_deliver, events_after trace_deliver))
    by (vm_compute; reflexivity).
  split; [exact H|].
  apply (intake_stream_sides _ _ _ Uni (newStream None (Some 8)) H).
  left. exists 0. vm_compute.
  apply list_elem_of_In. simpl. tauto.
Defined.

Lemma AcceptStream_cancelled_consumes_nothing_witness :
  run newConn trace_cancel
    = Some (state_after trace_cancel, events_after trace_cancel) ∧
  step (state_after trace_cancel) (AcceptCtxDone 0)
    = Some (state_after (trace_cancel ++ [AcceptCtxDone 0]),
            [EvCtxReturn 0 (Some context_Canceled)]) ∧
  loop Bidi (state_after (trace_cancel ++ [AcceptCtxDone 0]))
    = LSend (newStream (Some 7) (Some 7)).
Proof.
  assert (H : run newConn trace_cancel
              = Some (state_after trace_cancel, events_after trace_cancel))
    by (vm_compute; reflexivity).
  assert (H' : step (state_after trace_cancel) (AcceptCtxDone 0)
               = Some (state_after (trace_cancel ++ [AcceptCtxDone 0]),
                       [EvCtxReturn 0 (Some context_Canceled)]))
    by (vm_compute; reflexivity).
  pose proof (AcceptStream_cancelled_consumes_nothing _ _ _ _ _ _ H H')
    as (_ & _ & Hk).
  split; [exact H|]. split; [exact H'|].
  apply (Hk Bidi (newStream (Some 7) (Some 7))). reflexivity.
Defined.

Lemma dial_unconfigured_panics_witness :
  dialers (world_with zero_Dialer) !! 0 = Some zero_Dialer ∧
  fails_unconfigured (Dialer_Dial no_spare dial_ok 0 "localhost:4242")
    (world_with zero_Dialer).
Proof.
  assert (H : dialers (world_with zero_Dialer) !! 0 = Some zero_Dialer)
    by (vm_compute; reflexivity).
  split; [exact H|].
  exact (proj1 (proj2 (proj2
    (dial_unconfigured_panics no_spare dial_ok (world_with zero_Dialer) 0
       zero_Dialer None "localhost:4242" 0 "" "" H eq_refl eq_refl)))).
Defined.

Lemma tlsConfig_prepends_protocol_witness :
  dialers (world_with h3_dialer) !! 0 = Some h3_dialer ∧
  ∃ conf cfg w',
    Dialer_tlsConfig no_spare 0 (world_with h3_dialer) = (Return conf, w') ∧
    configs w' !! conf = Some cfg ∧
    head (elems_in w' (NextProtos cfg)) = Some "h3-test".
Proof.
  assert (H : dialers (world_with h3_dialer) !! 0 = Some h3_dialer)
    by (vm_compute; reflexivity).
  split; [exact H|].
  assert (Hp : Protocol h3_dialer ≠ "") by (intros Heq; discriminate Heq).
  assert (Hok : slice_ok (world_with h3_dialer)
                  (NextProtos (caller_cfg (world_with h3_dialer) h3_dialer)))
    by (intros a Ha; discriminate Ha).
  destruct (tlsConfig_prepends_protocol no_spare (world_with h3_dialer) 0
              h3_dialer H Hp Hok) as (conf & cfg & w' & H1 & H2 & _ & H4).
  exists conf, cfg, w'. split; [exact H1|]. split; [exact H2|exact H4].
Defined.

(** With a caller list: the result reads "h3-test", "b", "c", and the
    caller's array and configuration read as before. *)
Example tlsConfig_prepends_to_caller_list :
  let r := Dialer_tlsConfig no_spare 0 world_with_protos in
  r.1 = Return 4 ∧
  (elems_in r.2 ∘ NextProtos) <$> configs r.2 !! 4 = Some ["h3-test"; "b"; "c"] ∧
  (elems_in r.2 ∘ NextProtos) <$> configs r.2 !! 3 = Some ["b"; "c"] ∧
  arrays r.2 !! 1 = Some ["a"; "b"; "c"; "d"].
Proof. vm_compute. done. Qed.

(** Appending in place is what would have changed the caller's array:
    [append] onto the caller's own slice, which has spare capacity,
    overwrites the element behind it. *)
Example append_in_place_writes_caller_array :
  let s := {| arr := Some 1; off := 1; len := 2; cap := 3 |} in
  let r := append no_spare s ["h3-test"] world_with_protos in
  arrays r.2 !! 1 = Some ["a"; "b"; "c"; "h3-test"].
Proof. vm_compute. done. Qed.

(** When both loops fail at about the same time, either error may be the
    one that is stored: it is the one the errgroup sees first. *)
Example either_error_may_be_recorded :
  let fail := [LoopAcceptFail Bidi "bidi failed"; LoopAcceptFail Uni "uni failed"] in
  let unwind := [MainStep; MainStep; MainStep; MainStep; MainStep; MainStep] in
  c_streamErr (state_after (fail ++ [LoopReport Bidi; LoopReport Uni] ++ unwind))
    = Some "bidi failed" ∧
  c_streamErr (state_after (fail ++ [LoopReport Uni; LoopReport Bidi] ++ unwind))
    = Some "uni failed".
Proof. vm_compute. done. Qed.

(** Cancellation reaches a loop only in its accept call: a loop that
    holds a stream nobody receives stays blocked on the send after the
    connection is closed, and [acceptStreams] cannot finish until a call
    of AcceptStream takes the stream. *)
Example blocked_send_outlives_close :
  let s := state_after [LoopAcceptOk Bidi 7; CallClose; CloseOnce 0; WatcherFire;
                        LoopAcceptCancelled Uni; LoopReport Uni] in
  ctx_done s = true ∧ loop_bidi s = LSend (newStream (Some 7) (Some 7)) ∧
  step s (LoopAcceptCancelled Bidi) = None ∧ step s MainStep = None ∧
  c_streams (state_after [LoopAcceptOk Bidi 7; CallClose; CloseOnce 0; WatcherFire;
                          LoopAcceptCancelled Uni; LoopReport Uni;
                          CallAcceptStream; AcceptRecv 0 Bidi;
                          LoopAcceptCancelled Bidi; LoopReport Bidi;
                          MainStep; MainStep; MainStep; MainStep; MainStep; MainStep])
    = true.
Proof. vm_compute. done. Qed.

(** * Further properties of the dial path *)

Section DialMore.

Variable spare : nat -> nat -> nat.
Variable quic_dial : NetCall -> Session + Err.

(** [tlsConfig], with the dialer looked up. *)
Lemma tlsConfig_run_at w d dl :
  dialers w !! d = Some dl →
  let c0 := caller_cfg w dl in
  let conf := fresh (dom (configs w)) in
  ∃ w' s',
    Dialer_tlsConfig spare d w =
      ((if decide (len s' = 0) then Panic "no protocol specified" else Return conf), w') ∧
    dialers w' = dialers w ∧ net w' = net w ∧
    configs w' = <[conf := {| NextProtos := s'; ServerName := ServerName c0;
                              InsecureSkipVerify := InsecureSkipVerify c0 |}]> (configs w) ∧
    arrays w ⊆ arrays w' ∧
    (Protocol dl = "" → s' = NextProtos c0 ∧ arrays w' = arrays w) ∧
    (Protocol dl ≠ "" → len s' ≠ 0 ∧
       (slice_ok w (NextProtos c0) →
        elems_in w' s' = Protocol dl :: elems_in w (NextProtos c0))).
Proof.
  intros Hd. pose proof (tlsConfig_run spare w d) as H.
  rewrite Hd in H. exact H.
Qed.

(** What [tlsConfig] resolves to, read off the caller's memory. *)
Lemma resolved_protos_eq w d dl :
  dialers w !! d = Some dl →
  slice_ok w (NextProtos (caller_cfg w dl)) →
  resolved_protos spare d w
  = if decide (Protocol dl = "" ∧ len (NextProtos (caller_cfg w dl)) = 0)
    then None else Some (combined_protos w dl).
Proof.
  intros Hd Hok. unfold resolved_protos, combined_protos.
  destruct (tlsConfig_run_at w d dl Hd) as (w' & s' & Heq & _ & _ & Hc & Ha & He & Hne).
  rewrite Heq.
  destruct (decide (Protocol dl = "")) as [Hp|Hp].
  - destruct (He Hp) as [-> Harr].
    destruct (decide (len (NextProtos (caller_cfg w dl)) = 0)) as [Hl|Hl].
    + by rewrite decide_True.
    + rewrite decide_False by tauto. simpl.
      rewrite Hc, lookup_insert_eq. simpl. f_equal.
      apply elems_in_ext. intros a _. by rewrite Harr.
  - destruct (Hne Hp) as [Hl Hel].
    rewrite decide_False by done. rewrite decide_False by tauto.
    rewrite Hc, lookup_insert_eq. simpl. f_equal. by apply Hel.
Qed.

(** A dial operation of a configured dialer, step by step. *)
Lemma dial_configured_run (mk : Dialer → list string → NetCall) w d dl :
  dialers w !! d = Some dl →
  configured w dl →
  slice_ok w (NextProtos (caller_cfg w dl)) →
  ∃ w',
    (conf ← Dialer_tlsConfig spare d;
     dl ← load_dialer d;
     r ← call_quic quic_dial (mk dl) conf;
     mret (wrap_session r)) w
    = (Return (match quic_dial (mk dl (combined_protos w dl)) with
               | inl sess => (Some {| session := sess; conn := newConn |}, None)
               | inr err => (None, Some err)
               end), w') ∧
    net w' = net w ++ [mk dl (combined_protos w dl)].
Proof.
  intros Hd Hconf Hok.
  pose proof (resolved_protos_eq w d dl Hd Hok) as Hres.
  unfold resolved_protos in Hres.
  destruct (tlsConfig_run_at w d dl Hd) as (w' & s' & Heq & Hdl & Hnet & _).
  rewrite decide_False in Hres by (destruct Hconf; tauto).
  unfold mbind, M_bind. rewrite Heq in Hres |- *.
  destruct (decide (len s' = 0)); [done|].
  injection Hres as Hres. simpl.
  unfold load_dialer, call_quic. simpl. rewrite Hdl, Hd, Hres, Hnet. simpl.
  unfold mret, M_ret.
  eexists. split; [by destruct (quic_dial _)|reflexivity].
Qed.

(** X1: a dialer that names a protocol, directly or through its
    TLSConfig, never makes [tlsConfig] panic. What comes back is a
    configuration at an address that was not allocated before (so never
    the caller's own object), with the caller's other fields copied, a
    protocol list that is not empty and, when Protocol is empty, the
    caller's NextProtos slice itself. *)
Theorem tlsConfig_returns_fresh_clone w d dl :
  dialers w !! d = Some dl →
  configured w dl →
  ∃ conf cfg w',
    Dialer_tlsConfig spare d w = (Return conf, w') ∧
    configs w !! conf = None ∧
    configs w' !! conf = Some cfg ∧
    ServerName cfg = ServerName (caller_cfg w dl) ∧
    InsecureSkipVerify cfg = InsecureSkipVerify (caller_cfg w dl) ∧
    len (NextProtos cfg) ≠ 0 ∧
    (Protocol dl = "" → NextProtos cfg = NextProtos (caller_cfg w dl)).
Proof.
  intros Hd Hconf.
  destruct (tlsConfig_run_at w d dl Hd) as (w' & s' & Heq & _ & _ & Hc & _ & He & Hne).
  assert (Hlen : len s' ≠ 0).
  { destruct (decide (Protocol dl = "")) as [Hp|Hp].
    - destruct (He Hp) as [-> _]. destruct Hconf; done.
    - by apply Hne. }
  rewrite decide_False in Heq by done.
  eexists _, _, w'. split; [exact Heq|].
  split; [apply fresh_lookup_None|].
  split; [by rewrite Hc, lookup_insert_eq|]. simpl.
  repeat split; [done|]. intros Hp. by apply He.
Qed.

(** X2: on a configured dialer [DialContext] makes exactly one network
    call, [quic.DialAddrContext] with the caller's context and address,
    the dialer's QuicConfig and Protocol in front of the caller's
    NextProtos. When quic-go answers with an error, that error is
    returned as it is, with a nil connection; when it answers with a
    session, a new connection around that session is returned, with a
    nil error. *)
Theorem DialContext_calls_quic_once w d dl ctx address :
  dialers w !! d = Some dl →
  configured w dl →
  slice_ok w (NextProtos (caller_cfg w dl)) →
  let call := DialAddrContext ctx address (combined_protos w dl) (QuicConfig dl) in
  ∃ w',
    Dialer_DialContext spare quic_dial d ctx address w
    = (Return (match quic_dial call with
               | inl sess => (Some {| session := sess; conn := newConn |}, None)
               | inr err => (None, Some err)
               end), w') ∧
    net w' = net w ++ [call].
Proof.
  intros Hd Hconf Hok call.
  exact (dial_configured_run
           (λ dl protos, DialAddrContext ctx address protos (QuicConfig dl))
           w d dl Hd Hconf Hok).
Qed.

(** X3: on a configured dialer [ClientContext] makes exactly one network
    call, [quic.DialContext] with the caller's context, packet
    connection, remote address and host, the dialer's QuicConfig and
    Protocol in front of the caller's NextProtos. When quic-go answers
    with an error, that error is returned as it is, with a nil
    connection; when it answers with a session, a new connection around
    that session is returned, with a nil error. *)
Theorem ClientContext_calls_quic_once w d dl ctx pconn raddr host :
  dialers w !! d = Some dl →
  configured w dl →
  slice_ok w (NextProtos (caller_cfg w dl)) →
  let call := DialContext ctx pconn raddr host (combined_protos w dl) (QuicConfig dl) in
  ∃ w',
    Dialer_ClientContext spare quic_dial d ctx pconn raddr host w
    = (Return (match quic_dial call with
               | inl sess => (Some {| session := sess; conn := newConn |}, None)
               | inr err => (None, Some err)
               end), w') ∧
    net w' = net w ++ [call].
Proof.
  intros Hd Hconf Hok call.
  exact (dial_configured_run
           (λ dl protos, DialContext ctx pconn raddr host protos (QuicConfig dl))
           w d dl Hd Hconf Hok).
Qed.

(** A dial operation leaves what the next one resolves unchanged. *)
Lemma resolved_protos_preserved w w' d dl :
  dialers w !! d = Some dl →
  dialer_ok w dl →
  preserved w w' →
  resolved_protos spare d w' = resolved_protos spare d w.
Proof.
  intros Hd [Hp Hok] (Hdl & Hcf & Har).
  assert (Hd' : dialers w' !! d = Some dl) by (eapply lookup_weaken; eauto).
  assert (Hcc : caller_cfg w' dl = caller_cfg w dl).
  { unfold caller_cfg. destruct (TLSConfig dl) as [p|]; [|done].
    destruct (Hp p eq_refl) as [cfg Hcfg].
    by rewrite Hcfg, (lookup_weaken _ _ _ _ Hcfg Hcf). }
  assert (Hok' : slice_ok w' (NextProtos (caller_cfg w' dl))).
  { rewrite Hcc. intros a Ha. destruct (Hok a Ha) as [x Hx].
    exists x. eapply lookup_weaken; eauto. }
  rewrite (resolved_protos_eq w' d dl Hd' Hok'), (resolved_protos_eq w d dl Hd Hok).
  rewrite Hcc. unfold combined_protos. rewrite Hcc.
  by rewrite (elems_in_mono w w' _ Hok Har).
Qed.

(** X4: a dialer can be used again. After a [DialContext] or a
    [ClientContext], whatever quic-go answered, the next dial operation
    of the same dialer resolves the same protocol list (or panics the
    same way): Protocol is not added twice. *)
Theorem dialing_again_resolves_same_protos w d dl ctx address pconn raddr host :
  dialers w !! d = Some dl →
  dialer_ok w dl →
  resolved_protos spare d
    (Dialer_DialContext spare quic_dial d ctx address w).2
  = resolved_protos spare d w ∧
  resolved_protos spare d
    (Dialer_ClientContext spare quic_dial d ctx pconn raddr host w).2
  = resolved_protos spare d w.
Proof.
  intros Hd Hok. split.
  - apply (resolved_protos_preserved w _ d dl Hd Hok).
    exact (dial_preserved spare quic_dial
             (λ dl protos, DialAddrContext ctx address protos (QuicConfig dl)) w d).
  - apply (resolved_protos_preserved w _ d dl Hd Hok).
    exact (dial_preserved spare quic_dial
             (λ dl protos, DialContext ctx pconn raddr host protos (QuicConfig dl)) w d).
Qed.

End DialMore.

(** * Further properties of the connection *)

(** X5: whenever a call of AcceptStream has returned, it returned either
    a stream and a nil error or no stream and an error that is not nil:
    never both, never neither. *)
Theorem AcceptStream_returns_stream_xor_error tr s evs i c st err :
  run newConn tr = Some (s, evs) →
  accepts s !! i = Some c → apc c = ADone st err →
  (is_Some st ∧ err = None) ∨ (st = None ∧ is_Some err).
Proof.
  intros Hrun Hi Hpc. apply reachable_Good in Hrun as [_ _ HR].
  specialize (HR i c Hi). unfold returned_ok in HR. rewrite Hpc in HR.
  destruct st, err; try done; [left|right]; by eauto.
Qed.

(** X6: c.streamLock is never contended. Along every interleaving the
    write lock is held exactly while acceptStreams is between Lock and
    its deferred Unlock, the read holds are the calls of AcceptStream
    between RLock and RUnlock, and the two never overlap: readers come
    only once the intake is closed, after the writer is gone. So
    neither the Lock of line 79 nor the RLock of line 109 ever
    blocks. *)
Theorem streamLock_never_contended tr s evs :
  run newConn tr = Some (s, evs) →
  writer (c_streamLock s) = main_locked (main s) ∧
  readers (c_streamLock s) = countb reading (accepts s) ∧
  (0 < readers (c_streamLock s) →
   c_streams s = true ∧ writer (c_streamLock s) = false) ∧
  (∀ e, main s = MCheck (Some e) →
     ∃ s', step s MainStep = Some (s', []) ∧ main s' = MLocked e) ∧
  (∀ i c, accepts s !! i = Some c → apc c = AClosed →
     ∃ s', step s (AcceptStep i) = Some (s', []) ∧
           apc <$> accepts s' !! i = Some ARLocked).
Proof.
  intros Hrun. apply reachable_Good in Hrun as [HI [Hw Hr] _].
  pose proof (step_enabled_bool _ (inv_panic _ HI)) as Hen.
  pose proof (inv_streams _ HI) as Hs.
  split; [done|]. split; [done|]. split; [|split].
  - intros Hpos. destruct (c_streams s) eqn:Hc.
    + split; [done|]. rewrite Hw. by destruct (main s).
    + rewrite Hr, (open_no_readers s HI Hc) in Hpos. lia.
  - intros e Hm. unfold step, acceptStreams_main. rewrite Hen, Hm.
    rewrite Hm in Hw, Hs. simpl in Hw, Hs.
    unfold Lock. rewrite Hw, Hr, (open_no_readers s HI Hs). simpl.
    by eexists.
  - intros i c Hi Hpc. unfold step, AcceptStream_step. rewrite Hen, Hi. simpl.
    rewrite Hpc.
    pose proof (inv_callers _ HI i c Hi) as Hc. rewrite Hpc in Hc.
    rewrite Hc in Hs. destruct (main s); try done. simpl in Hw.
    unfold RLock. rewrite Hw. simpl. eexists. split; [done|].
    simpl. rewrite list_lookup_insert_eq; [done|]. by eapply lookup_lt_Some.
Qed.

Lemma step_permanent s l s' e :
  Inv s → step s l = Some (s', e) →
  (c_done s = true → c_done s' = true) ∧
  (ctx_done s = true → ctx_done s' = true) ∧
  (c_streams s = true → c_streams s' = true) ∧
  (∀ x, c_streamErr s = Some x → c_streamErr s' = Some x) ∧
  (∀ k x, loop k s = LDone x → loop k s' = LDone x).
Proof.
  intros HI Hstep.
  pose proof (inv_err _ HI) as Herr.
  unfold ctx_done.
  step_cases HI Hstep l; simpl.
  all: repeat match goal with
       | H : main ?s = _ |- _ => rewrite H in Herr; simpl in Herr
       end.
  all: split; [done|]; split; [try done; intros; by rewrite ?orb_true_r|].
  all: split; [done|]; split; [try done; by rewrite Herr|].
  all: intros k' x; try done.
  all: destruct k'; try done; simpl in *; try congruence.
  all: destruct k; simpl in *; congruence.
Qed.

(** X7: shutting down is permanent. From a state an interleaving has
    reached, whatever runs afterwards, c.done stays closed, the context
    of the accept calls stays done, the intake stays closed, a stored
    error is never replaced or cleared, and a loop that has finished
    stays finished with the same error. *)
Theorem shutdown_is_permanent tr s evs tr' s' evs' :
  run newConn tr = Some (s, evs) →
  run s tr' = Some (s', evs') →
  (c_done s = true → c_done s' = true) ∧
  (ctx_done s = true → ctx_done s' = true) ∧
  (c_streams s = true → c_streams s' = true) ∧
  (∀ x, c_streamErr s = Some x → c_streamErr s' = Some x) ∧
  (∀ k x, loop k s = LDone x → loop k s' = LDone x).
Proof.
  intros Hrun. apply reachable_Inv in Hrun as [HI _]. clear tr evs.
  revert s evs' HI. induction tr' as [|l tr' IH]; intros s evs' HI Hrun'; simpl in Hrun'.
  - by simplify_eq.
  - destruct (step s l) as [[s1 e1]|] eqn:Hstep; simpl in Hrun'; [|done].
    destruct (run s1 tr') as [[s2 e2]|] eqn:Hrun2; simpl in Hrun'; [|done].
    simplify_eq.
    destruct (step_permanent _ _ _ _ HI Hstep) as (H1 & H2 & H3 & H4 & H5).
    destruct (IH s1 e2 (step_Inv _ _ _ _ HI Hstep) Hrun2) as (G1 & G2 & G3 & G4 & G5).
    repeat split; eauto.
Qed.

(** ** Running to the end *)

(** With both loops finished [acceptStreams] can always take its next
    step. *)
Lemma main_progress s :
  Good s →
  loop_finished (loop_bidi s) = true → loop_finished (loop_uni s) = true →
  main s ≠ MExit →
  ∃ s1 e1, step s MainStep = Some (s1, e1) ∧
    S (main_left (main s1)) = main_left (main s) ∧
    loop_bidi s1 = loop_bidi s ∧ loop_uni s1 = loop_uni s ∧
    eg_err s1 = eg_err s ∧ accepts s1 = accepts s.
Proof.
  intros [HI [Hw Hr] _] Hb Hu Hm.
  pose proof (step_enabled_bool _ (inv_panic _ HI)) as Hen.
  pose proof (inv_streams _ HI) as Hs.
  assert (Heg : is_Some (eg_err s)).
  { destruct (loop_bidi s) as [| | |eb] eqn:Hlb; try done.
    by apply (inv_eg_some _ HI Bidi eb). }
  destruct Heg as [x Hx].
  unfold step, acceptStreams_main. rewrite Hen.
  destruct (main s) as [|[e|]| | | | |] eqn:Hmain; simpl in *; try done.
  - rewrite Hb, Hu, Hx. simpl. by eexists _, _.
  - unfold Lock. rewrite Hw, Hr, (open_no_readers s HI Hs). simpl. by eexists _, _.
  - pose proof (inv_check _ HI None Hmain). congruence.
  - by eexists _, _.
  - by eexists _, _.
  - by eexists _, _.
  - rewrite Hs. by eexists _, _.
Qed.

Lemma main_unwinds n : ∀ s,
  Good s →
  loop_finished (loop_bidi s) = true → loop_finished (loop_uni s) = true →
  main_left (main s) = n →
  ∃ s' evs', run s (replicate n MainStep) = Some (s', evs') ∧
    main s' = MExit ∧ eg_err s' = eg_err s ∧ accepts s' = accepts s.
Proof.
  induction n as [|n IH]; intros s HG Hb Hu Hn.
  - exists s, []. split; [done|]. by destruct (main s) as [|[]| | | | |].
  - destruct (main_progress s HG Hb Hu) as (s1 & e1 & Hstep & Hl & Hb1 & Hu1 & He1 & Ha1).
    { intros Hm. by rewrite Hm in Hn. }
    destruct (IH s1) as (s' & evs' & Hrun & Hm' & He' & Ha').
    + by eapply step_Good.
    + by rewrite Hb1.
    + by rewrite Hu1.
    + lia.
    + exists s', (e1 ++ evs'). simpl. rewrite Hstep. simpl. rewrite Hrun. simpl.
      split; [done|]. split; [done|]. split; congruence.
Qed.

(** X8: once both accept loops have finished, acceptStreams runs to its
    end without waiting for anything: eg.Wait returns, the error is
    stored under the lock, the deferred calls run and the intake is
    closed. The stored error is the errgroup's, and is not nil. *)
Theorem acceptStreams_runs_to_exit tr s evs :
  run newConn tr = Some (s, evs) →
  loop_finished (loop_bidi s) = true → loop_finished (loop_uni s) = true →
  ∃ s' evs', run s (replicate (main_left (main s)) MainStep) = Some (s', evs') ∧
    main s' = MExit ∧ c_streams s' = true ∧
    is_Some (c_streamErr s') ∧ c_streamErr s' = eg_err s ∧
    writer (c_streamLock s') = false.
Proof.
  intros Hrun Hb Hu. apply reachable_Good in Hrun as HG.
  destruct (main_unwinds _ s HG Hb Hu eq_refl) as (s' & evs' & Hrun' & Hm & He & _).
  pose proof (run_Good _ _ _ _ HG Hrun') as [HI' [Hw' _] _].
  exists s', evs'. split; [done|]. split; [done|].
  assert (Hc : c_streams s' = true) by (by rewrite (inv_streams _ HI'), Hm).
  split; [done|]. split; [by apply closed_error_stored|].
  split; [|by rewrite Hw', Hm].
  by rewrite (inv_err _ HI'), Hm.
Qed.

(** ** Shutting down *)

Lemma loop_with_loop k v s : loop k (with_loop k v s) = v.
Proof. by destruct k. Qed.

Lemma loop_with_loop_ne k k' v s : k' ≠ k → loop k' (with_loop k v s) = loop k' s.
Proof. by destruct k, k'. Qed.

Lemma cancel_enabled s k :
  panicked s = None → ctx_done s = true → loop k s = LAccept →
  step s (LoopAcceptCancelled k)
  = Some (with_loop k (LReturned context_Canceled) s,
          [EvAcceptErr k context_Canceled]).
Proof.
  intros Hp Hc Hl. unfold step, loop_accept.
  rewrite (step_enabled_bool _ Hp), Hc, Hl. by destruct k.
Qed.

Lemma report_enabled s k e :
  panicked s = None → loop k s = LReturned e →
  ∃ s', step s (LoopReport k) = Some (s', [EvReport k e]) ∧
    loop k s' = LDone e ∧ (∀ k', k' ≠ k → loop k' s' = loop k' s) ∧
    (ctx_done s = true → ctx_done s' = true) ∧
    main s' = main s ∧ accepts s' = accepts s.
Proof.
  intros Hp Hl. unfold step, loop_report. rewrite (step_enabled_bool _ Hp), Hl.
  eexists. split; [done|]. rewrite loop_with_loop. split; [done|].
  split.
  { intros k' Hk. rewrite loop_with_loop_ne by done. by destruct (eg_err s), k'. }
  unfold ctx_done.
  destruct (eg_err s); simpl; (split; [|done]); intros; by rewrite ?orb_true_r.
Qed.

(** From [LAccept] on, with the context done. *)
Lemma drain_accepting s k :
  Good s → ctx_done s = true → loop k s = LAccept →
  ∃ s' evs', run s [LoopAcceptCancelled k; LoopReport k] = Some (s', evs') ∧
    loop_finished (loop k s') = true ∧
    (∀ k', k' ≠ k → loop k' s' = loop k' s) ∧
    ctx_done s' = true ∧ main s' = main s ∧ accepts s' = accepts s.
Proof.
  intros HG Hc Hl. pose proof (inv_panic _ (good_inv _ HG)) as Hp.
  pose proof (cancel_enabled s k Hp Hc Hl) as H1.
  destruct (report_enabled (with_loop k (LReturned context_Canceled) s) k
              context_Canceled) as (s' & H2 & Hd & Hne & Hcd & Hm & Ha).
  { done. } { apply loop_with_loop. }
  exists s', [EvAcceptErr k context_Canceled; EvReport k context_Canceled].
  simpl. rewrite H1. simpl. rewrite H2. simpl.
  split; [done|]. split; [by rewrite Hd|].
  split; [|split; [by apply Hcd|done]].
  intros k' Hk. rewrite (Hne k' Hk). by apply loop_with_loop_ne.
Qed.

Lemma drain_run s k :
  Good s → ctx_done s = true →
  ∃ s' evs', run s (drain k (length (accepts s)) (loop k s)) = Some (s', evs') ∧
    loop_finished (loop k s') = true ∧
    (∀ k', k' ≠ k → loop k' s' = loop k' s) ∧
    ctx_done s' = true ∧ main s' = main s ∧
    length (accepts s')
    = length (accepts s) + (if sending (loop k s) then 1 else 0).
Proof.
  intros HG Hc. pose proof (good_inv _ HG) as HI.
  pose proof (inv_panic _ HI) as Hp.
  destruct (loop k s) as [|st|e|e] eqn:Hl; simpl drain.
  - destruct (drain_accepting s k HG Hc Hl) as (s' & evs' & Hrun & H1 & H2 & H3 & H4 & H5).
    exists s', evs'. rewrite H5. simpl. by rewrite Nat.add_0_r.
  - set (s1 := with_accepts (accepts s ++ [{| cctx := None; apc := ASelect |}]) s).
    assert (Hs1 : step s CallAcceptStream = Some (s1, [])).
    { unfold step. by rewrite (step_enabled_bool _ Hp). }
    pose proof (step_Good _ _ _ _ HG Hs1) as HG1.
    assert (Hl1 : loop k s1 = LSend st) by (by destruct k).
    assert (Hi1 : accepts s1 !! length (accepts s)
                  = Some {| cctx := None; apc := ASelect |}).
    { simpl. by rewrite lookup_app_r, Nat.sub_diag. }
    pose proof (AcceptRecv_enabled s1 k st _ _ (good_inv _ HG1) Hl1 Hi1 eq_refl) as Hs2.
    set (s2 := with_apc _ _ _ _) in Hs2.
    pose proof (step_Good _ _ _ _ HG1 Hs2) as HG2.
    destruct (drain_accepting s2 k HG2) as (s' & evs' & Hrun & H1 & H2 & H3 & H4 & H5).
    { by destruct k. } { by destruct k. }
    exists s', (EvRecv (length (accepts s)) k st :: evs').
    split.
    { apply (run_cons _ _ _ _ [] _ _ Hs1).
      apply (run_cons _ _ _ _ [_] _ _ Hs2). exact Hrun. }
    split; [done|]. split.
    { intros k' Hk. rewrite (H2 k' Hk). by destruct k, k'. }
    split; [done|]. split; [by rewrite H4|].
    rewrite H5. simpl. by rewrite length_insert, length_app.
  - destruct (report_enabled s k e Hp Hl) as (s' & H2 & Hd & Hne & Hcd & Hm & Ha).
    exists s', [EvReport k e]. simpl. rewrite H2. simpl.
    split; [done|]. split; [by rewrite Hd|]. split; [done|].
    split; [by apply Hcd|]. split; [done|]. rewrite Ha. simpl. lia.
  - exists s, []. split; [done|]. rewrite Hl. split; [done|]. split; [done|].
    split; [done|]. split; [done|]. simpl. lia.
Qed.

Lemma run_app_Some s tr1 tr2 s1 e1 s2 e2 :
  run s tr1 = Some (s1, e1) → run s1 tr2 = Some (s2, e2) →
  run s (tr1 ++ tr2) = Some (s2, e1 ++ e2).
Proof. intros H1 H2. rewrite run_app, H1. simpl. by rewrite H2. Qed.

(** Once [c.done] is closed the watcher brings the context to done. *)
Lemma watcher_run s :
  Good s → c_done s = true ∨ ctx_done s = true →
  ∃ s0 e0, run s (if ctx_done s then [] else [WatcherFire]) = Some (s0, e0) ∧
    ctx_done s0 = true ∧ loop_bidi s0 = loop_bidi s ∧ loop_uni s0 = loop_uni s ∧
    main s0 = main s ∧ accepts s0 = accepts s.
Proof.
  intros HG Hor. pose proof (good_inv _ HG) as HI.
  destruct (ctx_done s) eqn:Hcd.
  - by exists s, [].
  - destruct Hor as [Hd|]; [|done].
    assert (Hw : watcher s = false).
    { destruct (watcher s) eqn:Hw; [|done].
      unfold ctx_done in Hcd. by rewrite (inv_watcher _ HI Hw) in Hcd. }
    eexists _, _. simpl. unfold step, acceptStreams_watcher.
    rewrite (step_enabled_bool _ (inv_panic _ HI)), Hw, Hd. simpl.
    split; [done|]. by repeat split.
Qed.

(** X9: a closed connection can always be shut down. From any state an
    interleaving reaches in which c.done is closed or the context of the
    accept calls is done, the schedule [shutdown_schedule] runs: the
    watcher cancels the context, each loop gets the cancellation error
    from its accept call (a loop blocked on its send first has its
    stream taken by a call of AcceptStream) and reports to the errgroup,
    and acceptStreams unwinds. It ends with the intake closed and an
    error stored. *)
Theorem closed_connection_shuts_down tr s evs :
  run newConn tr = Some (s, evs) →
  c_done s = true ∨ ctx_done s = true →
  ∃ s' evs', run s (shutdown_schedule s) = Some (s', evs') ∧
    main s' = MExit ∧ c_streams s' = true ∧ is_Some (c_streamErr s') ∧
    (∀ k, loop_finished (loop k s') = true).
Proof.
  intros Hrun Hor. apply reachable_Good in Hrun as HG.
  destruct (watcher_run s HG Hor) as (s0 & e0 & Hrun0 & Hcd0 & Hb0 & Hu0 & Hm0 & Ha0).
  pose proof (run_Good _ _ _ _ HG Hrun0) as HG0.
  destruct (drain_run s0 Bidi HG0 Hcd0) as (s1 & e1 & Hrun1 & Hf1 & Hne1 & Hcd1 & Hm1 & Ha1).
  pose proof (run_Good _ _ _ _ HG0 Hrun1) as HG1.
  destruct (drain_run s1 Uni HG1 Hcd1) as (s2 & e2 & Hrun2 & Hf2 & Hne2 & Hcd2 & Hm2 & Ha2).
  pose proof (run_Good _ _ _ _ HG1 Hrun2) as HG2.
  assert (Hb2 : loop_finished (loop_bidi s2) = true).
  { change (loop_bidi s2) with (loop Bidi s2). by rewrite (Hne2 Bidi). }
  destruct (main_unwinds _ s2 HG2 Hb2 Hf2 eq_refl) as (s3 & e3 & Hrun3 & Hm3 & _).
  pose proof (run_Good _ _ _ _ HG2 Hrun3) as [HI3 _ _].
  assert (Hc3 : c_streams s3 = true) by (by rewrite (inv_streams _ HI3), Hm3).
  exists s3, (e0 ++ e1 ++ e2 ++ e3). split.
  { unfold shutdown_schedule.
    apply (run_app_Some _ _ _ _ _ _ _ Hrun0).
    simpl in Hrun1. rewrite Ha0, Hb0 in Hrun1.
    apply (run_app_Some _ _ _ _ _ _ _ Hrun1).
    rewrite (Hne1 Uni), Ha1, Ha0 in Hrun2 by done. simpl in Hrun2.
    rewrite Hb0, Hu0 in Hrun2.
    apply (run_app_Some _ _ _ _ _ _ _ Hrun2).
    by rewrite Hm2, Hm1, Hm0 in Hrun3. }
  split; [done|]. split; [done|]. split; [by apply closed_error_stored|].
  intros k. destruct (inv_loops_done _ HI3) as [? ?]; [by rewrite Hm3|].
  by destruct k.
Qed.

(** X10: a call of AcceptStream made after the intake is closed, with a
    context that is not cancelled, does not block and returns the
    stored error. In its select neither the ctx.Done case nor the
    receipt of a stream is enabled; the call takes the closed-intake
    case, goes through RLock, the read of c.streamErr and RUnlock,
    returns no stream and the stored error, which is not nil, and
    leaves the lock as it found it. *)
Theorem AcceptStream_after_shutdown_returns_error tr s evs :
  run newConn tr = Some (s, evs) →
  c_streams s = true →
  ∃ e s1 s',
    c_streamErr s = Some e ∧
    step s CallAcceptStream = Some (s1, []) ∧
    accepts s1 !! length (accepts s) = Some {| cctx := None; apc := ASelect |} ∧
    step s1 (AcceptCtxDone (length (accepts s))) = None ∧
    (∀ k, step s1 (AcceptRecv (length (accepts s)) k) = None) ∧
    run s (late_accept (length (accepts s)))
    = Some (s', [EvClosedReturn (length (accepts s)) (Some e)]) ∧
    accepts s' !! length (accepts s)
    = Some {| cctx := None; apc := ADone None (Some e) |} ∧
    c_streamLock s' = c_streamLock s.
Proof.
  intros Hrun Hc. apply reachable_Good in Hrun as HG.
  pose proof (inv_panic _ (good_inv _ HG)) as Hp.
  set (s1 := with_accepts (accepts s ++ [{| cctx := None; apc := ASelect |}]) s).
  assert (Hs1 : step s CallAcceptStream = Some (s1, [])).
  { unfold step. by rewrite (step_enabled_bool _ Hp). }
  assert (Hi1 : accepts s1 !! length (accepts s)
                = Some {| cctx := None; apc := ASelect |}).
  { simpl. by rewrite lookup_app_r, Nat.sub_diag. }
  pose proof (step_Good _ _ _ _ HG Hs1) as HG1.
  destruct (select_closed_returns s1 _ _ HG1 Hi1 eq_refl Hc)
    as (e & s' & He & Hrun' & Ha & Hl).
  exists e, s1, s'.
  split; [exact He|]. split; [exact Hs1|]. split; [exact Hi1|].
  split.
  { unfold step, AcceptStream_ctx. rewrite Hi1. simpl. by destruct (bool_decide _). }
  split.
  { intros k. unfold step, AcceptStream_recv. rewrite Hi1. simpl.
    rewrite Hc. by destruct (bool_decide _), (loop k s1). }
  split; [exact (run_cons _ _ _ _ [] _ _ Hs1 Hrun')|].
  split; [exact Ha|exact Hl].
Qed.

(** ** What the session is closed with *)

Lemma step_closes s l s' e :
  step s l = Some (s', e) →
  closer_args <$> closes s'
  = (closer_args <$> closes s) ++ option_list (close_args l).
Proof.
  intros Hstep.
  destruct l; step_split Hstep; simpl; rewrite ?app_nil_r; try done.
  all: try (by rewrite fmap_app).
  all: rewrite list_fmap_insert; apply list_insert_id.
  all: rewrite list_lookup_fmap;
       match goal with H : closes _ !! _ = Some _ |- _ => by rewrite H end.
Qed.

Lemma filter_insert_perm {A} (f : A → bool) l j x y :
  l !! j = Some x →
  (if f y then [y] else []) ++ List.filter f l
  ≡ₚ (if f x then [x] else []) ++ List.filter f (<[j := y]> l).
Proof.
  revert j. induction l as [|a l IH]; intros [|j] Hj; simplify_eq/=.
  - destruct (f x), (f y); simpl; try done. apply perm_swap.
  - specialize (IH _ Hj). destruct (f a); simpl; [|done].
    rewrite <- !Permutation_middle. by f_equiv.
Qed.

Lemma step_returned_closes s l s' e :
  step s l = Some (s', e) →
  closer_args <$> List.filter close_returned (closes s')
  ≡ₚ (closer_args <$> List.filter close_returned (closes s)) ++ session_closes e.
Proof.
  intros Hstep.
  destruct l; step_split Hstep; simpl; rewrite ?app_nil_r; try done.
  all: try (rewrite List.filter_app; simpl; by rewrite app_nil_r).
  all: match goal with
       | H : closes ?s !! ?j = Some ?c |- context [<[?j := ?y]> _] =>
           pose proof (filter_insert_perm close_returned _ j c y H) as Hperm;
           unfold close_returned in Hperm at 1 3; simpl in Hperm
       end.
  all: match goal with H : cpc ?c = _ |- _ => rewrite H in Hperm end.
  all: simpl in Hperm.
  all: try (by rewrite <- Hperm).
  rewrite <- Hperm, <- Permutation_cons_append. done.
Qed.

Lemma run_closes tr : ∀ s s' evs,
  run s tr = Some (s', evs) →
  closer_args <$> closes s' = (closer_args <$> closes s) ++ omap close_args tr ∧
  closer_args <$> List.filter close_returned (closes s')
  ≡ₚ (closer_args <$> List.filter close_returned (closes s)) ++ session_closes evs.
Proof.
  induction tr as [|l tr IH]; intros s s' evs Hrun; simpl in Hrun.
  - simplify_eq. simpl. by rewrite !app_nil_r.
  - destruct (step s l) as [[s1 e1]|] eqn:Hstep; simpl in Hrun; [|done].
    destruct (run s1 tr) as [[s2 e2]|] eqn:Hrun'; simpl in Hrun; [|done].
    simplify_eq. destruct (IH _ _ _ Hrun') as [H1 H2].
    split.
    + rewrite H1, (step_closes _ _ _ _ Hstep), <- app_assoc. f_equal.
      simpl. by destruct (close_args l).
    + rewrite H2, (step_returned_closes _ _ _ _ Hstep), <- app_assoc.
      unfold session_closes. by rewrite omap_app.
Qed.

Lemma filter_sublist {A} (f : A → bool) l : List.filter f l `sublist_of` l.
Proof.
  induction l as [|a l IH]; simpl; [done|].
  destruct (f a); by constructor.
Qed.

(** X11: the session is closed with what the callers passed. Along every
    interleaving the code and description pairs the session's
    CloseWithError has been invoked with are, up to order, those of
    distinct calls made so far: the arguments of a call of
    CloseWithError, zero and the blank description for a call of
    Close. *)
Theorem session_closed_with_callers_arguments tr s evs :
  run newConn tr = Some (s, evs) →
  session_closes evs ⊆+ omap close_args tr.
Proof.
  intros Hrun. destruct (run_closes _ _ _ _ Hrun) as [H1 H2].
  simpl in H1, H2. rewrite <- H1, <- H2.
  apply sublist_submseteq, fmap_sublist, filter_sublist.
Qed.

(** ** Delivery from any quiet state *)

(** X12: a consumer that keeps up loses nothing, from any state. In a
    state where nothing has failed and both loops wait in their accept
    call, for any sequence of arrivals of the two kinds the schedule
    [deliver_all] runs: the session returns exactly these arrivals,
    AcceptStream returns the stream of every one of them, in arrival
    order within each kind, and the connection is again in such a
    state. *)
Theorem consumer_keeping_up_receives_all s arr :
  ready s →
  ∃ s' evs, run s (deliver_all (length (accepts s)) arr) = Some (s', evs) ∧
    ready s' ∧
    length (accepts s') = length (accepts s) + length arr ∧
    ∀ k, accepted k evs = arrivals_of k arr ∧
         delivered k evs = stream_of k <$> arrivals_of k arr.
Proof.
  revert s. induction arr as [|[k h] arr IH]; intros s Hs.
  - exists s, []. split; [done|]. split; [done|]. split; [simpl; lia|].
    intros k. by split.
  - destruct (deliver_one s k h Hs) as (s1 & Hrun1 & Hs1 & Hlen).
    destruct (IH s1 Hs1) as (s2 & evs2 & Hrun2 & Hs2 & Hlen2 & Hall).
    rewrite Hlen in Hrun2.
    eexists s2, (_ :: _ :: evs2).
    split; [|split; [done|split]].
    + cbn [deliver_all]. rewrite run_app, Hrun1. simpl. by rewrite Hrun2.
    + rewrite Hlen2, Hlen. simpl. lia.
    + intros k'. destruct (Hall k') as [Ha Hd].
      unfold accepted, delivered, arrivals_of in *.
      destruct k, k'; simpl; (split; [try f_equal; exact Ha|try f_equal; exact Hd]).
Qed.

(** ** Calls of Close *)

(** X13: a call of Close or CloseWithError never blocks or panics,
    whatever the connection is doing and however often it has been
    closed before. It closes c.done if no earlier call went through
    c.closer, invokes the session's CloseWithError with its own
    arguments (zero and the blank description for Close) and returns
    what the session answered; afterwards c.done is closed. *)
Theorem CloseWithError_runs_to_return tr s evs l c d r :
  run newConn tr = Some (s, evs) →
  close_args l = Some (c, d) →
  ∃ s',
    run s [l; CloseOnce (length (closes s)); CloseSession (length (closes s)) r]
    = Some (s', (if c_closer s then [] else [EvCloseDone]) ++ [EvSessionClose c d]) ∧
    closes s' !! length (closes s) = Some {| code := c; desc := d; cpc := CRet r |} ∧
    c_done s' = true ∧ c_closer s' = true ∧ panicked s' = None.
Proof.
  intros Hrun Hl. apply reachable_Inv in Hrun as [HI _].
  pose proof (inv_panic _ HI) as Hp. pose proof (inv_done _ HI) as Hd.
  assert (Hs1 : step s l
                = Some (with_closes (closes s ++ [{| code := c; desc := d; cpc := COnce |}]) s,
                        [])).
  { unfold step. rewrite (step_enabled_bool _ Hp).
    destruct l; simplify_eq/=; done. }
  unfold run. rewrite Hs1. simpl.
  unfold step, CloseWithError_once, CloseWithError_session. simpl.
  rewrite bool_decide_eq_true_2 by done.
  rewrite lookup_app_r by done. rewrite Nat.sub_diag. simpl.
  rewrite Hd. destruct (c_closer s) eqn:Hc; simpl.
  all: rewrite bool_decide_eq_true_2 by done.
  all: rewrite list_lookup_insert_eq by (rewrite length_app; simpl; lia); simpl.
  all: eexists; split; [done|]; simpl.
  all: rewrite list_lookup_insert_eq
         by (rewrite length_insert, length_app; simpl; lia).
  all: by rewrite ?Hd, ?Hc.
Qed.

Lemma step_watcher_done s l s' e :
  (watcher s = true → c_done s = true) →
  step s l = Some (s', e) →
  watcher s' = true → c_done s' = true.
Proof.
  intros Hw Hstep. destruct l; step_split Hstep; simpl; try done.
Qed.

Lemma run_watcher_done tr : ∀ s s' evs,
  (watcher s = true → c_done s = true) →
  run s tr = Some (s', evs) →
  watcher s' = true → c_done s' = true.
Proof.
  induction tr as [|l tr IH]; intros s s' evs Hw Hrun; simpl in Hrun.
  - by simplify_eq.
  - destruct (step s l) as [[s1 e1]|] eqn:Hstep; simpl in Hrun; [|done].
    destruct (run s1 tr) as [[s2 e2]|] eqn:Hrun'; simpl in Hrun; [|done].
    simplify_eq. eapply IH; [|done]. by eapply step_watcher_done.
Qed.

(** X14: the goroutine that waits for c.done is released by a call of
    Close or CloseWithError only. Along an interleaving without such a
    call c.done stays open and that goroutine stays blocked, also after
    the session has failed and acceptStreams has returned: neither the
    errgroup's cancellation nor the deferred cancel wakes it. *)
Theorem watcher_waits_for_Close tr s evs :
  run newConn tr = Some (s, evs) →
  omap close_args tr = [] →
  c_done s = false ∧ watcher s = false ∧ step s WatcherFire = None.
Proof.
  intros Hrun Hno.
  destruct (run_closes _ _ _ _ Hrun) as [Hcl _]. simpl in Hcl.
  rewrite Hno in Hcl. apply fmap_nil_inv in Hcl.
  assert (Hw0 : watcher newConn = true → c_done newConn = true) by done.
  pose proof (run_watcher_done _ _ _ _ Hw0 Hrun) as Hw.
  apply reachable_Inv in Hrun as [HI HE].
  assert (Hc : c_closer s = false).
  { destruct (c_closer s) eqn:Hc; [|done].
    apply (ev_closer _ _ HE) in Hc. rewrite Hcl in Hc. unfold countb in Hc.
    simpl in Hc. lia. }
  assert (Hd : c_done s = false) by (by rewrite (inv_done _ HI)).
  assert (Hw' : watcher s = false).
  { destruct (watcher s); [|done]. rewrite Hw in Hd; done. }
  split; [done|]. split; [done|].
  unfold step, acceptStreams_watcher.
  rewrite (step_enabled_bool _ (inv_panic _ HI)), Hw', Hd. done.
Qed.

(** X15: shutting down drops no stream. When the intake is closed, every
    stream a loop made of a handle the session returned has been
    returned by AcceptStream, in order: acceptStreams does not close the
    intake while a loop still holds a stream. *)
Theorem shutdown_drops_no_stream tr s evs k :
  run newConn tr = Some (s, evs) →
  c_streams s = true →
  delivered k evs = stream_of k <$> accepted k evs.
Proof.
  intros Hrun Hc. apply reachable_Inv in Hrun as [HI HE].
  rewrite <- (ev_fifo _ _ HE k).
  pose proof (inv_streams _ HI) as Hs. rewrite Hc in Hs.
  destruct (inv_loops_done _ HI) as [Hb Hu].
  { intros Hm. by rewrite Hm in Hs. }
  unfold pending.
  destruct k; simpl; [destruct (loop_bidi s)|destruct (loop_uni s)];
    try done; by rewrite app_nil_r.
Qed.

(** ** The further properties at sample inputs *)

Lemma tlsConfig_returns_fresh_clone_witness :
  dialers world_with_protos !! 0 = Some listed_dialer ∧
  ∃ conf cfg w',
    Dialer_tlsConfig no_spare 0 world_with_protos = (Return conf, w') ∧
    configs world_with_protos !! conf = None ∧
    configs w' !! conf = Some cfg ∧
    ServerName cfg = "example.org".
Proof.
  assert (H : dialers world_with_protos !! 0 = Some listed_dialer)
    by (vm_compute; reflexivity).
  assert (Hc : configured world_with_protos listed_dialer)
    by (left; intros Heq; discriminate Heq).
  split; [exact H|].
  destruct (tlsConfig_returns_fresh_clone no_spare world_with_protos 0
              listed_dialer H Hc) as (conf & cfg & w' & H1 & H2 & H3 & H4 & _).
  exists conf, cfg, w'. split; [exact H1|]. split; [exact H2|].
  split; [exact H3|]. rewrite H4. vm_compute. reflexivity.
Defined.

Lemma listed_dialer_ok : dialer_ok world_with_protos listed_dialer.
Proof.
  split.
  - intros p Hp. injection Hp as <-. eexists. vm_compute. reflexivity.
  - intros a Ha. vm_compute in Ha. injection Ha as <-.
    eexists. vm_compute. reflexivity.
Defined.

Lemma DialContext_calls_quic_once_witness :
  dialers world_with_protos !! 0 = Some listed_dialer ∧
  (∃ w',
     Dialer_DialContext no_spare dial_ok 0 None "localhost:4242" world_with_protos
     = (Return (Some {| session := 1; conn := newConn |}, None), w') ∧
     net w' = [DialAddrContext None "localhost:4242" ["h3-test"; "b"; "c"] None]) ∧
  (∃ w',
     Dialer_DialContext no_spare dial_refused 0 None "localhost:4242"
       world_with_protos
     = (Return (None, Some "connection refused"), w') ∧
     net w' = [DialAddrContext None "localhost:4242" ["h3-test"; "b"; "c"] None]).
Proof.
  assert (H : dialers world_with_protos !! 0 = Some listed_dialer)
    by (vm_compute; reflexivity).
  assert (Hc : configured world_with_protos listed_dialer)
    by (left; intros Heq; discriminate Heq).
  split; [exact H|]. split.
  - destruct (DialContext_calls_quic_once no_spare dial_ok world_with_protos 0
                listed_dialer None "localhost:4242" H Hc (proj2 listed_dialer_ok))
      as (w' & H1 & H2).
    exists w'. split; [exact H1|exact H2].
  - destruct (DialContext_calls_quic_once no_spare dial_refused world_with_protos 0
                listed_dialer None "localhost:4242" H Hc (proj2 listed_dialer_ok))
      as (w' & H1 & H2).
    exists w'. split; [exact H1|exact H2].
Defined.

Lemma ClientContext_calls_quic_once_witness :
  dialers world_with_protos !! 0 = Some listed_dialer ∧
  (∃ w',
     Dialer_ClientContext no_spare dial_ok 0 None 5 "192.0.2.1:443" "example.org"
       world_with_protos
     = (Return (Some {| session := 1; conn := newConn |}, None), w') ∧
     net w' = [DialContext None 5 "192.0.2.1:443" "example.org"
                 ["h3-test"; "b"; "c"] None]) ∧
  (∃ w',
     Dialer_ClientContext no_spare dial_refused 0 None 5 "192.0.2.1:443"
       "example.org" world_with_protos
     = (Return (None, Some "connection refused"), w') ∧
     net w' = [DialContext None 5 "192.0.2.1:443" "example.org"
                 ["h3-test"; "b"; "c"] None]).
Proof.
  assert (H : dialers world_with_protos !! 0 = Some listed_dialer)
    by (vm_compute; reflexivity).
  assert (Hc : configured world_with_protos listed_dialer)
    by (left; intros Heq; discriminate Heq).
  split; [exact H|]. split.
  - destruct (ClientContext_calls_quic_once no_spare dial_ok world_with_protos 0
                listed_dialer None 5 "192.0.2.1:443" "example.org" H Hc
                (proj2 listed_dialer_ok))
      as (w' & H1 & H2).
    exists w'. split; [exact H1|exact H2].
  - destruct (ClientContext_calls_quic_once no_spare dial_refused world_with_protos 0
                listed_dialer None 5 "192.0.2.1:443" "example.org" H Hc
                (proj2 listed_dialer_ok))
      as (w' & H1 & H2).
    exists w'. split; [exact H1|exact H2].
Defined.

Lemma dialing_again_resolves_same_protos_witness :
  dialers world_with_protos !! 0 = Some listed_dialer ∧
  resolved_protos no_spare 0
    (Dialer_DialContext no_spare dial_ok 0 None "localhost:4242" world_with_protos).2
  = Some ["h3-test"; "b"; "c"].
Proof.
  assert (H : dialers world_with_protos !! 0 = Some listed_dialer)
    by (vm_compute; reflexivity).
  split; [exact H|].
  rewrite (proj1 (dialing_again_resolves_same_protos no_spare dial_ok
                    world_with_protos 0 listed_dialer None "localhost:4242"
                    5 "192.0.2.1:443" "example.org" H listed_dialer_ok)).
  vm_compute. reflexivity.
Defined.

Lemma AcceptStream_returns_stream_xor_error_witness :
  run newConn trace_deliver
    = Some (state_after trace_deliver, events_after trace_deliver) ∧
  accepts (state_after trace_deliver) !! 0
    = Some {| cctx := None; apc := ADone (Some (stream_of Uni 8)) None |} ∧
  ((is_Some (Some (stream_of Uni 8)) ∧ (None : error) = None) ∨
   (Some (stream_of Uni 8) = None ∧ is_Some (None : error))).
Proof.
  assert (H : run newConn trace_deliver
              = Some (state_after trace_deliver, events_after trace_deliver))
    by (vm_compute; reflexivity).
  assert (Hi : accepts (state_after trace_deliver) !! 0
               = Some {| cctx := None; apc := ADone (Some (stream_of Uni 8)) None |})
    by (vm_compute; reflexivity).
  split; [exact H|]. split; [exact Hi|].
  exact (AcceptStream_returns_stream_xor_error _ _ _ 0 _ _ _ H Hi eq_refl).
Defined.

Lemma streamLock_never_contended_witness :
  run newConn trace_shutdown
    = Some (state_after trace_shutdown, events_after trace_shutdown) ∧
  writer (c_streamLock (state_after trace_shutdown)) = false ∧
  readers (c_streamLock (state_after trace_shutdown)) = 0.
Proof.
  assert (H : run newConn trace_shutdown
              = Some (state_after trace_shutdown, events_after trace_shutdown))
    by (vm_compute; reflexivity).
  pose proof (streamLock_never_contended _ _ _ H) as (Hw & Hr & _).
  split; [exact H|]. split; [rewrite Hw|rewrite Hr]; vm_compute; reflexivity.
Defined.

Lemma shutdown_is_permanent_witness :
  run newConn trace_session_failed
    = Some (state_after trace_session_failed, events_after trace_session_failed) ∧
  run (state_after trace_session_failed) trace_two_closes
    = Some (state_after (trace_session_failed ++ trace_two_closes),
            events_after trace_two_closes) ∧
  c_streams (state_after (trace_session_failed ++ trace_two_closes)) = true ∧
  c_streamErr (state_after (trace_session_failed ++ trace_two_closes))
    = Some "timeout".
Proof.
  assert (H : run newConn trace_session_failed
              = Some (state_after trace_session_failed,
                      events_after trace_session_failed))
    by (vm_compute; reflexivity).
  assert (H' : run (state_after trace_session_failed) trace_two_closes
               = Some (state_after (trace_session_failed ++ trace_two_closes),
                       events_after trace_two_closes))
    by (vm_compute; reflexivity).
  pose proof (shutdown_is_permanent _ _ _ _ _ _ H H') as (_ & _ & Hc & He & _).
  split; [exact H|]. split; [exact H'|].
  split; [apply Hc|apply He]; vm_compute; reflexivity.
Defined.

Lemma acceptStreams_runs_to_exit_witness :
  run newConn trace_loops_failed
    = Some (state_after trace_loops_failed, events_after trace_loops_failed) ∧
  ∃ s' evs',
    run (state_after trace_loops_failed) (replicate 6 MainStep) = Some (s', evs') ∧
    main s' = MExit ∧ c_streams s' = true ∧ c_streamErr s' = Some "timeout".
Proof.
  assert (H : run newConn trace_loops_failed
              = Some (state_after trace_loops_failed, events_after trace_loops_failed))
    by (vm_compute; reflexivity).
  split; [exact H|].
  destruct (acceptStreams_runs_to_exit _ _ _ H eq_refl eq_refl)
    as (s' & evs' & H1 & H2 & H3 & _ & H5 & _).
  exists s', evs'. split; [exact H1|]. split; [exact H2|]. split; [exact H3|].
  rewrite H5. vm_compute. reflexivity.
Defined.

Lemma closed_connection_shuts_down_witness :
  run newConn trace_close_while_offering
    = Some (state_after trace_close_while_offering,
            events_after trace_close_while_offering) ∧
  shutdown_schedule (state_after trace_close_while_offering)
  = [WatcherFire; CallAcceptStream; AcceptRecv 0 Bidi;
     LoopAcceptCancelled Bidi; LoopReport Bidi;
     LoopAcceptCancelled Uni; LoopReport Uni;
     MainStep; MainStep; MainStep; MainStep; MainStep; MainStep] ∧
  ∃ s' evs',
    run (state_after trace_close_while_offering)
      (shutdown_schedule (state_after trace_close_while_offering))
    = Some (s', evs') ∧
    c_streams s' = true.
Proof.
  assert (H : run newConn trace_close_while_offering
              = Some (state_after trace_close_while_offering,
                      events_after trace_close_while_offering))
    by (vm_compute; reflexivity).
  split; [exact H|]. split; [vm_compute; reflexivity|].
  destruct (closed_connection_shuts_down _ _ _ H (or_introl eq_refl))
    as (s' & evs' & H1 & _ & H3 & _).
  exists s', evs'. split; [exact H1|exact H3].
Defined.

Lemma AcceptStream_after_shutdown_returns_error_witness :
  run newConn trace_session_failed
    = Some (state_after trace_session_failed, events_after trace_session_failed) ∧
  ∃ s',
    run (state_after trace_session_failed) (late_accept 0)
    = Some (s', [EvClosedReturn 0 (Some "timeout")]) ∧
    accepts s' !! 0 = Some {| cctx := None; apc := ADone None (Some "timeout") |}.
Proof.
  assert (H : run newConn trace_session_failed
              = Some (state_after trace_session_failed,
                      events_after trace_session_failed))
    by (vm_compute; reflexivity).
  split; [exact H|].
  destruct (AcceptStream_after_shutdown_returns_error _ _ _ H eq_refl)
    as (e & s1 & s' & H1 & _ & _ & _ & _ & H2 & H3 & _).
  assert (Hv : c_streamErr (state_after trace_session_failed) = Some "timeout")
    by (vm_compute; reflexivity).
  rewrite Hv in H1. injection H1 as <-.
  exists s'. split; [exact H2|exact H3].
Defined.

Lemma session_closed_with_callers_arguments_witness :
  run newConn trace_two_closes
    = Some (state_after trace_two_closes, events_after trace_two_closes) ∧
  session_closes (events_after trace_two_closes) ⊆+ [(0%N, ""); (0%N, "")].
Proof.
  assert (H : run newConn trace_two_closes
              = Some (state_after trace_two_closes, events_after trace_two_closes))
    by (vm_compute; reflexivity).
  split; [exact H|].
  exact (session_closed_with_callers_arguments _ _ _ H).
Defined.

Lemma consumer_keeping_up_receives_all_witness :
  ready newConn ∧
  ∃ s' evs,
    run newConn (deliver_all 0 [(Uni, 8); (Bidi, 7); (Uni, 9)]) = Some (s', evs) ∧
    delivered Uni evs = [stream_of Uni 8; stream_of Uni 9].
Proof.
  assert (H : ready newConn) by (repeat split; reflexivity).
  split; [exact H|].
  destruct (consumer_keeping_up_receives_all newConn [(Uni, 8); (Bidi, 7); (Uni, 9)] H)
    as (s' & evs & H1 & _ & _ & H4).
  exists s', evs. split; [exact H1|]. exact (proj2 (H4 Uni)).
Defined.

Lemma CloseWithError_runs_to_return_witness :
  run newConn trace_session_failed
    = Some (state_after trace_session_failed, events_after trace_session_failed) ∧
  ∃ s',
    run (state_after trace_session_failed)
      [CallCloseWithError 7 "bye"; CloseOnce 0; CloseSession 0 (Some "closed")]
    = Some (s', [EvCloseDone; EvSessionClose 7 "bye"]) ∧
    closes s' !! 0 = Some {| code := 7; desc := "bye"; cpc := CRet (Some "closed") |}.
Proof.
  assert (H : run newConn trace_session_failed
              = Some (state_after trace_session_failed,
                      events_after trace_session_failed))
    by (vm_compute; reflexivity).
  split; [exact H|].
  destruct (CloseWithError_runs_to_return _ _ _ (CallCloseWithError 7 "bye") 7%N "bye"
              (Some "closed") H eq_refl) as (s' & H1 & H2 & _).
  exists s'. split; [exact H1|exact H2].
Defined.

Lemma watcher_waits_for_Close_witness :
  run newConn trace_session_failed
    = Some (state_after trace_session_failed, events_after trace_session_failed) ∧
  main (state_after trace_session_failed) = MExit ∧
  step (state_after trace_session_failed) WatcherFire = None.
Proof.
  assert (H : run newConn trace_session_failed
              = Some (state_after trace_session_failed,
                      events_after trace_session_failed))
    by (vm_compute; reflexivity).
  split; [exact H|]. split; [vm_compute; reflexivity|].
  exact (proj2 (proj2 (watcher_waits_for_Close _ _ _ H eq_refl))).
Defined.

Lemma shutdown_drops_no_stream_witness :
  run newConn trace_deliver_then_fail
    = Some (state_after trace_deliver_then_fail,
            events_after trace_deliver_then_fail) ∧
  c_streams (state_after trace_deliver_then_fail) = true ∧
  delivered Uni (events_after trace_deliver_then_fail) = [stream_of Uni 8].
Proof.
  assert (H : run newConn trace_deliver_then_fail
              = Some (state_after trace_deliver_then_fail,
                      events_after trace_deliver_then_fail))
    by (vm_compute; reflexivity).
  split; [exact H|]. split; [reflexivity|].
  rewrite (shutdown_drops_no_stream _ _ _ Uni H eq_refl).
  vm_compute. reflexivity.
Defined.
